(** * veles, visualisation/trigram.cc: the trigram widget

    A shallow embedding of [TrigramWidget]: the brightness heuristic
    ([suggestBrightness], [setBrightness]), the morph state machine
    ([timerEvent], [setShape], [setMode]) and the manipulator controller
    ([setManipulator], [event]).

    The widget computes with C++ [float] and [double]; the first module
    gives the IEEE 754 arithmetic those computations use. *)

From stdpp Require Import base list sorting.
From Stdlib Require Import ZArith Lia Strings.Byte Floats.SpecFloat.

Local Open Scope Z_scope.

(** ** IEEE 754 binary32 and binary64 arithmetic

    Every finite binary32 or binary64 number is an integer multiple of
    [2^-1074] (the smallest positive binary64 number), so a finite value is
    kept as that integer: [Fin k] stands for [k * 2^-1074].  The sign of
    zero is not tracked: nothing in the widget tells [+0] from [-0] (the one
    divisor that can be zero comes from an unsigned size).

    Rounding is to nearest, ties to even, as C++ does by default. *)
Module IEEE.

Record format := { prec : Z; low : Z; emax : Z }.

(** [low] is the binary logarithm of the smallest positive number of the
    format, counted in units of [2^-1074]. *)
Definition binary32 : format := {| prec := 24; low := 925; emax := 128 |}.
Definition binary64 : format := {| prec := 53; low := 0; emax := 1024 |}.

Definition unit_exp : Z := 1074.
Definition U : Z := 2 ^ unit_exp.

Inductive float := NaN | Inf (neg : bool) | Fin (k : Z).

(** The integer nearest to [n / d], ties to even ([0 <= n], [0 < d]). *)
Definition rne_div (n d : Z) : Z :=
  let q := n / d in
  match 2 * (n mod d) ?= d with
  | Lt => q
  | Gt => q + 1
  | Eq => if Z.even q then q else q + 1
  end.

(** The exponent of the last kept bit of [n / d]: [prec] significant bits,
    but never below the format's smallest number. *)
Definition shift_of (f : format) (n d : Z) : Z :=
  Z.max (low f) (Z.log2 (n / d) - prec f + 1).

Definition round_pos (f : format) (n d : Z) : Z :=
  let s := shift_of f n d in rne_div n (d * 2 ^ s) * 2 ^ s.

(** The formats of this file: at least one significant bit, and a smallest
    number that is a multiple of the unit. *)
Definition good_format (f : format) : Prop := 0 < prec f /\ 0 <= low f.

(** [round f n d]: the number of format [f] nearest to [n / d] units
    ([0 < d]); overflow gives an infinity. *)
Definition round (f : format) (n d : Z) : float :=
  let k := round_pos f (Z.abs n) d in
  if 2 ^ (emax f + unit_exp) <=? k then Inf (n <? 0) else Fin (Z.sgn n * k).

(** The finite value of [round f n 1], barring overflow. *)
Definition round_int (f : format) (n : Z) : Z :=
  Z.sgn n * round_pos f (Z.abs n) 1.

(** The format [f] counted in units [2^e] times as large: rounding
    commutes with the change of unit, which keeps the numbers of a
    computation short. *)
Definition coarse (f : format) (e : Z) : format :=
  {| prec := prec f; low := Z.max 0 (low f - e); emax := emax f |}.

(** The number of format [f] nearest to the rational [p / q]: what a
    decimal literal denotes, and what an integer converts to. *)
Definition of_ratio (f : format) (p q : Z) : float := round f (p * U) q.
Definition of_int (f : format) (z : Z) : float := of_ratio f z 1.

(** Conversion between the formats: widening is exact, narrowing rounds. *)
Definition convert (f : format) (x : float) : float :=
  match x with
  | Fin k => round f k 1
  | _ => x
  end.

Definition opp (x : float) : float :=
  match x with
  | NaN => NaN
  | Inf s => Inf (negb s)
  | Fin k => Fin (- k)
  end.

Definition add (f : format) (x y : float) : float :=
  match x, y with
  | NaN, _ | _, NaN => NaN
  | Inf a, Inf b => if Bool.eqb a b then Inf a else NaN
  | Inf a, Fin _ => Inf a
  | Fin _, Inf b => Inf b
  | Fin a, Fin b => round f (a + b) 1
  end.

Definition sub (f : format) (x y : float) : float := add f x (opp y).

Definition mul (f : format) (x y : float) : float :=
  match x, y with
  | NaN, _ | _, NaN => NaN
  | Inf a, Inf b => Inf (xorb a b)
  | Inf a, Fin k | Fin k, Inf a =>
      if k =? 0 then NaN else Inf (xorb a (k <? 0))
  | Fin a, Fin b => round f (a * b) U
  end.

Definition div (f : format) (x y : float) : float :=
  match x, y with
  | NaN, _ | _, NaN => NaN
  | Inf _, Inf _ => NaN
  | Inf a, Fin k => Inf (xorb a (k <? 0))
  | Fin _, Inf _ => Fin 0
  | Fin a, Fin b =>
      if b =? 0 then (if a =? 0 then NaN else Inf (a <? 0))
      else round f (Z.sgn b * a * U) (Z.abs b)
  end.

(** [x < y]; false as soon as one side is a NaN. *)
Definition ltb (x y : float) : bool :=
  match x, y with
  | NaN, _ | _, NaN => false
  | Inf a, Inf b => a && negb b
  | Inf a, Fin _ => a
  | Fin _, Inf b => negb b
  | Fin a, Fin b => a <? b
  end.

Definition gtb (x y : float) : bool := ltb y x.

(** Conversion to [bool]: everything but zero is true. *)
Definition nonzero (x : float) : bool :=
  match x with
  | Fin k => negb (k =? 0)
  | _ => true
  end.

(** [static_cast<int>]: truncation toward zero (undefined, here [None],
    outside the range of [int] and on NaN). *)
Definition to_int (x : float) : option Z :=
  match x with
  | Fin k =>
      let z := Z.quot k U in
      if (- 2 ^ 31 <=? z) && (z <? 2 ^ 31) then Some z else None
  | _ => None
  end.

(** The same number in the Standard Library's specification of IEEE 754,
    used to cross-check the arithmetic above on concrete values. *)
Definition to_spec (f : format) (x : float) : spec_float :=
  match x with
  | NaN => S754_nan
  | Inf s => S754_infinity s
  | Fin k => binary_normalize (prec f) (emax f) k (- unit_exp) false
  end.

(** The conversion from [double] to [float] in that specification. *)
Definition narrow_spec (x : spec_float) : spec_float :=
  match x with
  | S754_finite s m e => binary_normalize 24 128 (cond_Zopp s (Zpos m)) e s
  | _ => x
  end.

End IEEE.

Import IEEE.

(** ** Machine integers *)
Module Int.

Definition INT_MAX : Z := 2 ^ 31 - 1.

(** Conversion to [int] (32 bits, two's complement). *)
Definition wrap (z : Z) : Z := (z + 2 ^ 31) mod 2 ^ 32 - 2 ^ 31.

(** Arithmetic in [uint64_t]. *)
Definition wrap_u64 (z : Z) : Z := z mod 2 ^ 64.

End Int.

(** ** The brightness heuristic *)

Definition k_minimum_brightness : Z := 25.
Definition k_maximum_brightness : Z := 103.
Definition k_brightness_heuristic_threshold : float := of_ratio binary64 66 100.
Definition k_brightness_heuristic_min : Z := 38.
Definition k_brightness_heuristic_max : Z := 66.
Definition k_brightness_heuristic_scaling : float := of_ratio binary64 25 10.

(** The data collaborator (the base class, not among the sources):
    [getData()] is the byte buffer, [getDataSize()] its length. *)
Definition getDataSize (data : list byte) : Z := Z.of_nat (length data).

(** [counts[data[i]] += 1] on the [std::vector<uint64_t>]; [None] stands for
    an access outside the vector or the buffer. *)
Definition count_byte (data : list byte) (counts : list Z) (i : nat)
  : option (list Z) :=
  d ← data !! i;
  c ← counts !! Byte.to_nat d;
  Some (<[Byte.to_nat d := Int.wrap_u64 (c + 1)]> counts).

(** [for (int i = 0; i < size; ++i) counts[data[i]] += 1;] with [n]
    iterations left. *)
Fixpoint count_loop (data : list byte) (counts : list Z) (i n : nat)
  : option (list Z) :=
  match n with
  | O => Some counts
  | S n' =>
      counts' ← count_byte data counts i;
      count_loop data counts' (S i) n'
  end.

(** [std::sort(counts.begin(), counts.end())]: ascending. *)
Definition sort_counts (counts : list Z) : list Z := merge_sort Z.le counts.

(** The loop guard [offset < 255 && sum < k_brightness_heuristic_threshold * size]:
    [sum] and [size] convert to [double], the product is rounded. *)
Definition walk_guard (size offset sum : Z) : bool :=
  (offset <? 255)
  && ltb (of_int binary64 sum)
         (mul binary64 k_brightness_heuristic_threshold (of_int binary64 size)).

(** [while (guard) { sum += counts[255 - offset]; offset += 1; }], returning
    the final [(offset, sum)].  [fuel] bounds the iterations; [None] is an
    access outside the vector, or fuel used up. *)
Fixpoint walk (fuel : nat) (counts : list Z) (size offset sum : Z)
  : option (Z * Z) :=
  if walk_guard size offset sum then
    match fuel with
    | O => None
    | S fuel' =>
        c ← counts !! Z.to_nat (255 - offset);
        walk fuel' counts size (Int.wrap (offset + 1))
             (Int.wrap (Int.wrap_u64 (sum + c)))
    end
  else Some (offset, sum).

Definition suggestBrightness (data : list byte) : option Z :=
  let size := Int.wrap (getDataSize data) in
  if size <? 100 then
    Some (Z.quot (k_minimum_brightness + k_maximum_brightness) 2)
  else
    counts ← count_loop data (replicate 256 0) 0 (Z.to_nat size);
    '(offset, _) ← walk 255 (sort_counts counts) size 0 0;
    offset' ← to_int (div binary64 (of_int binary64 offset)
                          k_brightness_heuristic_scaling);
    Some (Z.max k_brightness_heuristic_min
                (k_brightness_heuristic_max - offset')).

(** The brightness fields of the widget; [c_brightness] is a [float]. *)
Record Brightness := {
  brightness_ : Z;
  c_brightness : float;
  use_brightness_heuristic_ : bool
}.

(** The divisor of [setBrightness]: the data size, converted to [float]. *)
Definition brightness_divisor (dataSize : Z) : float :=
  of_int binary32 dataSize.

(** [c_brightness = static_cast<float>(value) * value * value;
     c_brightness /= getDataSize();] *)
Definition setBrightness (value dataSize : Z) (w : Brightness) : Brightness :=
  let v := of_int binary32 value in
  {| brightness_ := value;
     c_brightness :=
       div binary32 (mul binary32 (mul binary32 v v) v)
           (brightness_divisor dataSize);
     use_brightness_heuristic_ := use_brightness_heuristic_ w |}.

Definition autoSetBrightness (data : list byte) (w : Brightness)
  : option Brightness :=
  new_brightness ← suggestBrightness data;
  if new_brightness =? brightness_ w then Some w
  else Some (setBrightness new_brightness (getDataSize data) w).

(** The brightness part of [refresh()]. *)
Definition refresh (data : list byte) (w : Brightness) : option Brightness :=
  w' ← (if use_brightness_heuristic_ w then autoSetBrightness data w
        else Some w);
  Some (setBrightness (brightness_ w') (getDataSize data) w').

(** The constructor's brightness fields ([c_brightness] is set by the first
    [setBrightness]). *)
Definition initial_brightness : Brightness :=
  {| brightness_ := Z.quot (k_maximum_brightness + k_minimum_brightness) 2;
     c_brightness := Fin 0;
     use_brightness_heuristic_ := true |}.

(** Reference quantities for the statements about the walk. *)

(** How often [b] occurs in the buffer. *)
Definition occurrences (b : byte) (data : list byte) : Z :=
  Z.of_nat (length (List.filter (Byte.eqb b) data)).

Definition sum_list_Z (l : list Z) : Z := foldr Z.add 0 l.

(** The sum of the [k] largest buckets of a sorted vector. *)
Definition top_sum (sorted : list Z) (k : Z) : Z :=
  sum_list_Z (take (Z.to_nat k) (reverse sorted)).

(** The 256 byte values in order, and the histogram of the buffer over
    them: bucket [v] holds how often [v] occurs. *)
Definition byte_values : list byte :=
  (fun n => default x00%byte (Byte.of_nat n)) <$> seq 0 256.

Definition histogram (data : list byte) : list Z :=
  (fun v => occurrences v data) <$> byte_values.

(** The sorted histogram: what the walk runs over. *)
Definition sorted_histogram (data : list byte) : list Z :=
  sort_counts (histogram data).

(** The running sum has reached [0.66 * size] ([66/100] as a rational). *)
Definition reached (size sum : Z) : Prop := 66 * size <= 100 * sum.

(** What the walk relies on: 256 sorted buckets that hold all the bytes of
    a buffer whose size fits [int]. *)
Record walk_input (sc : list Z) (size : Z) : Prop := {
  wi_length : length sc = 256%nat;
  wi_nonneg : Forall (Z.le 0) sc;
  wi_sum : sum_list_Z sc = size;
  wi_sorted : StronglySorted Z.le sc;
  wi_size : 0 <= size <= Int.INT_MAX
}.

(** ** The morph state machine *)

Inductive EVisualisationShape := CUBE | CYLINDER | SPHERE.
Inductive EVisualisationMode := TRIGRAM | LAYERED_DIGRAM.

Definition shape_eqb (a b : EVisualisationShape) : bool :=
  match a, b with
  | CUBE, CUBE | CYLINDER, CYLINDER | SPHERE, SPHERE => true
  | _, _ => false
  end.

Definition mode_eqb (a b : EVisualisationMode) : bool :=
  match a, b with
  | TRIGRAM, TRIGRAM | LAYERED_DIGRAM, LAYERED_DIGRAM => true
  | _, _ => false
  end.

(** The animation fields of the widget.  Their declarations are in
    trigram.h, which is not among the sources; the four scalars are
    [float]: [angle] is advanced by [0.5f], and all of them go to
    [setUniformValue], which takes a [GLfloat] and has no overload for
    [double]. *)
Record Morph := {
  angle : float;
  c_sph : float;
  c_cyl : float;
  c_pos : float;
  shape_ : EVisualisationShape;
  mode_ : EVisualisationMode;
  is_playing_ : bool
}.

(** The literal [0.01] is a [double]; [1] and [0] convert to [float]. *)
Definition k_step : float := of_ratio binary64 1 100.
Definition f_one : float := of_int binary32 1.
Definition f_zero : float := of_int binary32 0.

(** [x += 0.01] and [x -= 0.01] on a [float]: the sum is computed in
    [double] and converted back. *)
Definition add_step (x : float) : float := convert binary32 (add binary64 x k_step).
Definition sub_step (x : float) : float := convert binary32 (sub binary64 x k_step).

(** [if (x > 1) x = 1;] and [if (x < 0) x = 0;] *)
Definition clamp_hi (x : float) : float := if gtb x f_one then f_one else x.
Definition clamp_lo (x : float) : float := if ltb x f_zero then f_zero else x.

Definition timerEvent (w : Morph) : Morph :=
  let angle' :=
    if is_playing_ w then add binary32 (angle w) (of_ratio binary32 1 2)
    else angle w in
  let cyl :=
    if shape_eqb (shape_ w) CYLINDER then add_step (c_cyl w)
    else sub_step (c_cyl w) in
  let sph :=
    if shape_eqb (shape_ w) SPHERE then add_step (c_sph w)
    else sub_step (c_sph w) in
  let cyl := clamp_lo (clamp_hi cyl) in
  let sph := clamp_lo (clamp_hi sph) in
  let pos :=
    if mode_eqb (mode_ w) LAYERED_DIGRAM && ltb (c_pos w) f_one
    then clamp_hi (add_step (c_pos w))
    else c_pos w in
  let pos :=
    if negb (mode_eqb (mode_ w) LAYERED_DIGRAM) && nonzero pos
    then clamp_lo (sub_step pos)
    else pos in
  {| angle := angle'; c_sph := sph; c_cyl := cyl; c_pos := pos;
     shape_ := shape_ w; mode_ := mode_ w; is_playing_ := is_playing_ w |}.

Definition setMode (mode : EVisualisationMode) (animate : bool) (w : Morph)
  : Morph :=
  let pos :=
    if mode_eqb mode LAYERED_DIGRAM && negb animate then f_one
    else if mode_eqb mode TRIGRAM && negb animate then f_zero
    else c_pos w in
  {| angle := angle w; c_sph := c_sph w; c_cyl := c_cyl w; c_pos := pos;
     shape_ := shape_ w; mode_ := mode; is_playing_ := is_playing_ w |}.

Definition setShape (shape : EVisualisationShape) (w : Morph) : Morph :=
  {| angle := angle w; c_sph := c_sph w; c_cyl := c_cyl w; c_pos := c_pos w;
     shape_ := shape; mode_ := mode_ w; is_playing_ := is_playing_ w |}.

(** The animation side of [playPause()]. *)
Definition togglePlaying (w : Morph) : Morph :=
  {| angle := angle w; c_sph := c_sph w; c_cyl := c_cyl w; c_pos := c_pos w;
     shape_ := shape_ w; mode_ := mode_ w; is_playing_ := negb (is_playing_ w) |}.

(** The position blend on the integer behind a finite [float]: the step
    [0.01] in units of [2^-1074], a [+=] or [-=] of it with its two
    roundings, and what one tick makes of the blend while the mode is
    [LAYERED_DIGRAM] ([pos_up]) or is not ([pos_down]). *)
Definition step_units : Z := 5764607523034235 * 2 ^ 1015.

Definition stepped (n : Z) : Z := round_int binary32 (round_int binary64 n).

Definition pos_up (k : Z) : Z :=
  if k <? U then Z.min U (stepped (k + step_units)) else k.

Definition pos_down (k : Z) : Z :=
  if k =? 0 then 0 else Z.max 0 (stepped (k - step_units)).

(** The same in units of [2^-149], the smallest positive [float]: one is
    [2^149] there. *)
Definition stepped_coarse (n : Z) : Z :=
  round_int (coarse binary32 925) (round_int (coarse binary64 925) n).

Definition pos_up_coarse (k : Z) : Z :=
  if k <? 2 ^ 149
  then Z.min (2 ^ 149) (stepped_coarse (k + 5764607523034235 * 2 ^ 90))
  else k.

Definition pos_down_coarse (k : Z) : Z :=
  if k =? 0 then 0
  else Z.max 0 (stepped_coarse (k - 5764607523034235 * 2 ^ 90)).

(** The constructor's animation fields. *)
Definition initial_morph : Morph :=
  {| angle := f_zero; c_sph := f_zero; c_cyl := f_zero; c_pos := f_zero;
     shape_ := CUBE; mode_ := TRIGRAM; is_playing_ := true |}.

(** What can happen to the animation fields between two redraws. *)
Inductive Action :=
| Tick
| SetShape (shape : EVisualisationShape)
| SetMode (mode : EVisualisationMode) (animate : bool)
| PlayPause.

Definition step (w : Morph) (a : Action) : Morph :=
  match a with
  | Tick => timerEvent w
  | SetShape shape => setShape shape w
  | SetMode mode animate => setMode mode animate w
  | PlayPause => togglePlaying w
  end.

Definition run (actions : list Action) (w : Morph) : Morph :=
  fold_left step actions w.

(** [n] timer ticks in a row. *)
Definition ticks (n : nat) (w : Morph) : Morph := Nat.iter n timerEvent w.

(** A blend scalar within [[0, 1]]. *)
Definition in01 (x : float) : Prop := exists k, x = Fin k /\ 0 <= k <= U.

Definition blends_in01 (w : Morph) : Prop :=
  in01 (c_cyl w) /\ in01 (c_sph w) /\ in01 (c_pos w).

(** The target of the position blend. *)
Definition pos_target (mode : EVisualisationMode) : float :=
  match mode with
  | LAYERED_DIGRAM => f_one
  | TRIGRAM => f_zero
  end.

(** ** The manipulator controller *)

(** The three manipulator objects the constructor creates; a
    [Manipulator*] is one of them or [nullptr]. *)
Inductive ManipId := Spin | Trackball | Free.

Definition manip_eqb (a b : ManipId) : bool :=
  match a, b with
  | Spin, Spin | Trackball, Trackball | Free, Free => true
  | _, _ => false
  end.

Definition ptr_eqb (a b : option ManipId) : bool :=
  match a, b with
  | None, None => true
  | Some x, Some y => manip_eqb x y
  | _, _ => false
  end.

Definition manipulators_ : list ManipId := [Spin; Trackball; Free].

Inductive QEvent :=
| MouseMove (buttons : Z)
| KeyPress (key : Z)
| OtherEvent (type : Z).

Definition LeftButton : Z := 1.

Inductive Icon := PlayIcon | PauseIcon.

Record QPushButton := { icon : Icon; enabled : bool }.

(** What the controller does to the outside, in order. *)
Inductive Effect :=
| ManipulatorChanged (m : option ManipId)
| SetFocus
| ProcessEvent (m : ManipId) (e : QEvent)
| BaseEvent (e : QEvent).

Section Controller.

(** The manipulators themselves live in another file: their state, and the
    virtual functions the widget calls. *)
Context {Matrix MState : Type}.
Context (transform : ManipId -> MState -> Matrix).
Context (initFromMatrix : ManipId -> Matrix -> MState -> MState).
Context (handlesPause : ManipId -> bool).
Context (processEvent : ManipId -> QEvent -> MState -> MState).
Context (isCtrlButton : Z -> bool).

(** The fields of the widget that the controller reads and writes;
    [playing] is [is_playing_], [event_filters] the event filters installed
    on the widget, [effects] what has been emitted and delivered so far. *)
Record Controller := {
  current_manipulator_ : option ManipId;
  playing : bool;
  pause_button_ : option QPushButton;
  event_filters : list ManipId;
  manipulator_state : ManipId -> MState;
  effects : list Effect
}.

Definition set_state (m : ManipId) (s : MState) (st : ManipId -> MState)
  : ManipId -> MState :=
  fun m' => if manip_eqb m' m then s else st m'.

(** [playPause()]: [None] when [pause_button_] is [nullptr]. *)
Definition playPause (w : Controller) : option Controller :=
  b ← pause_button_ w;
  Some {| current_manipulator_ := current_manipulator_ w;
          playing := negb (playing w);
          pause_button_ :=
            Some {| icon := if playing w then PlayIcon else PauseIcon;
                    enabled := enabled b |};
          event_filters := event_filters w;
          manipulator_state := manipulator_state w;
          effects := effects w |}.

Definition removeEventFilter (m : ManipId) (fs : list ManipId) : list ManipId :=
  List.filter (fun m' => negb (manip_eqb m' m)) fs.

Definition installEventFilter (m : option ManipId) (fs : list ManipId)
  : list ManipId :=
  match m with
  | None => fs
  | Some m => m :: removeEventFilter m fs
  end.

Definition setManipulator (manipulator : option ManipId) (w : Controller)
  : option Controller :=
  if ptr_eqb manipulator (current_manipulator_ w) then Some w
  else
    let fs := fold_left (fun fs m => removeEventFilter m fs) manipulators_
                        (event_filters w) in
    let fs := installEventFilter manipulator fs in
    let st :=
      match current_manipulator_ w, manipulator with
      | Some cur, Some m =>
          set_state m
            (initFromMatrix m (transform cur (manipulator_state w cur))
                            (manipulator_state w m))
            (manipulator_state w)
      | _, _ => manipulator_state w
      end in
    let w1 :=
      {| current_manipulator_ := manipulator;
         playing := playing w;
         pause_button_ := pause_button_ w;
         event_filters := fs;
         manipulator_state := st;
         effects := effects w |} in
    w2 ← (if playing w1 then Some w1 else playPause w1);
    button ←
      match pause_button_ w2 with
      | None => Some None
      | Some b =>
          cur ← current_manipulator_ w2;
          Some (Some {| icon := icon b; enabled := handlesPause cur |})
      end;
    Some {| current_manipulator_ := current_manipulator_ w2;
            playing := playing w2;
            pause_button_ := button;
            event_filters := event_filters w2;
            manipulator_state := manipulator_state w2;
            effects :=
              effects w2
              ++ [ManipulatorChanged (current_manipulator_ w2); SetFocus] |}.

(** [m->processEvent(this, event)] *)
Definition deliver (m : ManipId) (e : QEvent) (w : Controller) : Controller :=
  {| current_manipulator_ := current_manipulator_ w;
     playing := playing w;
     pause_button_ := pause_button_ w;
     event_filters := event_filters w;
     manipulator_state :=
       set_state m (processEvent m e (manipulator_state w m))
                 (manipulator_state w);
     effects := effects w ++ [ProcessEvent m e] |}.

(** [return QWidget::event(event);] *)
Definition base_event (e : QEvent) (w : Controller) : Controller :=
  {| current_manipulator_ := current_manipulator_ w;
     playing := playing w;
     pause_button_ := pause_button_ w;
     event_filters := event_filters w;
     manipulator_state := manipulator_state w;
     effects := effects w ++ [BaseEvent e] |}.

(** The constructor: no manipulator yet, then
    [setManipulator(manipulators_.front())]. *)
Definition constructed (states : ManipId -> MState) : option Controller :=
  setManipulator (Some Spin)
    {| current_manipulator_ := None;
       playing := true;
       pause_button_ := None;
       event_filters := [];
       manipulator_state := states;
       effects := [] |}.

Definition event (e : QEvent) (w : Controller) : option Controller :=
  w' ←
    match e with
    | MouseMove buttons =>
        if negb (Z.land buttons LeftButton =? 0)
           && ptr_eqb (current_manipulator_ w) (Some Spin)
        then
          w1 ← setManipulator (Some Trackball) w;
          Some (deliver Trackball e w1)
        else Some w
    | KeyPress key =>
        if (ptr_eqb (current_manipulator_ w) (Some Spin)
            || ptr_eqb (current_manipulator_ w) (Some Trackball))
           && isCtrlButton key
        then
          w1 ← setManipulator (Some Free) w;
          Some (deliver Trackball e w1)
        else Some w
    | OtherEvent _ => Some w
    end;
  Some (base_event e w').

End Controller.

(** ** The brightness slots and the GL initialisation *)

(** [brightnessSliderMoved(value)].  The check box that the slot unchecks
    notifies [setUseBrightnessHeuristic(0)], which assigns the flag the
    value it already has. *)
Definition brightnessSliderMoved (value dataSize : Z) (w : Brightness)
  : Brightness :=
  if value =? brightness_ w then w
  else
    setBrightness value dataSize
      {| brightness_ := brightness_ w;
         c_brightness := c_brightness w;
         use_brightness_heuristic_ := false |}.

(** [setUseBrightnessHeuristic(state)]: the [int] becomes a [bool]. *)
Definition setUseBrightnessHeuristic (state : Z) (data : list byte)
  (w : Brightness) : option Brightness :=
  let w' := {| brightness_ := brightness_ w;
               c_brightness := c_brightness w;
               use_brightness_heuristic_ := negb (state =? 0) |} in
  if use_brightness_heuristic_ w' then autoSetBrightness data w'
  else Some w'.

(** The brightness part of [initializeVisualisationGL()], once the OpenGL
    functions are there: [autoSetBrightness(); ...
    setBrightness(brightness_);]. *)
Definition initializeVisualisationGL (data : list byte) (w : Brightness)
  : option Brightness :=
  w' ← autoSetBrightness data w;
  Some (setBrightness (brightness_ w') (getDataSize data) w').

(** What reaches the brightness fields while the buffer stays the same. *)
Inductive BrightnessAction :=
| Refresh
| SliderMoved (value : Z)
| UseHeuristic (state : Z)
| InitGL.

Definition brightness_step (data : list byte) (a : BrightnessAction)
  (w : Brightness) : option Brightness :=
  match a with
  | Refresh => refresh data w
  | SliderMoved value => Some (brightnessSliderMoved value (getDataSize data) w)
  | UseHeuristic state => setUseBrightnessHeuristic state data w
  | InitGL => initializeVisualisationGL data w
  end.

Fixpoint brightness_run (data : list byte) (l : list BrightnessAction)
  (w : Brightness) : option Brightness :=
  match l with
  | [] => Some w
  | a :: l => w' ← brightness_step data a w; brightness_run data l w'
  end.

(** [c_brightness] is the intensity that belongs to [brightness_] and the
    buffer. *)
Definition up_to_date (data : list byte) (w : Brightness) : Prop :=
  c_brightness w
  = c_brightness (setBrightness (brightness_ w) (getDataSize data) w).

(** ** What reaches the manipulator controller *)

(** The order in which [event] promotes the manipulators. *)
Definition rank (m : option ManipId) : nat :=
  match m with
  | None => 0
  | Some Spin => 1
  | Some Trackball => 2
  | Some Free => 3
  end.

(** An event for the widget, a manipulator action of the toolbar
    ([createAction] binds [setManipulator] to the manipulator), or the pause
    button released. *)
Inductive ControllerAction :=
| Event (e : QEvent)
| Select (m : ManipId)
| PauseReleased.

Section ControllerRuns.

Context {Matrix MState : Type}.
Context (transform : ManipId -> MState -> Matrix).
Context (initFromMatrix : ManipId -> Matrix -> MState -> MState).
Context (handlesPause : ManipId -> bool).
Context (processEvent : ManipId -> QEvent -> MState -> MState).
Context (isCtrlButton : Z -> bool).

Definition controller_step (a : ControllerAction) (w : @Controller MState)
  : option (@Controller MState) :=
  match a with
  | Event e =>
      event transform initFromMatrix handlesPause processEvent isCtrlButton e w
  | Select m => setManipulator transform initFromMatrix handlesPause (Some m) w
  | PauseReleased => playPause w
  end.

Fixpoint controller_run (l : list ControllerAction) (w : @Controller MState)
  : option (@Controller MState) :=
  match l with
  | [] => Some w
  | a :: l => w' ← controller_step a w; controller_run l w'
  end.

End ControllerRuns.

(** The icon of the pause button shows what a click does: pause while the
    animation plays, play while it is paused. *)
Definition icon_shows_state {MState : Type} (w : @Controller MState) : Prop :=
  forall b, pause_button_ w = Some b ->
            icon b = if playing w then PauseIcon else PlayIcon.

(** * Facts about the arithmetic *)

(** ** Rounding a quotient to the nearest integer *)

Lemma rne_div_cases (n d : Z) :
  0 < d ->
  exists q r, n = d * q + r /\ 0 <= r < d /\
    (rne_div n d = q \/ rne_div n d = q + 1) /\
    (2 * r < d -> rne_div n d = q) /\
    (d < 2 * r -> rne_div n d = q + 1).
Proof.
  intros Hd. exists (n / d), (n mod d).
  pose proof (Z.div_mod n d ltac:(lia)) as Hdm.
  pose proof (Z.mod_pos_bound n d Hd) as Hr.
  unfold rne_div.
  destruct (Z.compare_spec (2 * (n mod d)) d) as [He|Hl|Hg];
    repeat split; try lia; destruct (Z.even (n / d)); lia.
Qed.

Lemma rne_div_nonneg (n d : Z) : 0 <= n -> 0 < d -> 0 <= rne_div n d.
Proof.
  intros Hn Hd.
  pose proof (Z.div_pos n d Hn Hd) as Hq.
  unfold rne_div.
  destruct (2 * (n mod d) ?= d); [destruct (Z.even (n / d))| |]; lia.
Qed.

Lemma rne_div_exact (q d : Z) : 0 < d -> rne_div (q * d) d = q.
Proof.
  intros Hd. unfold rne_div.
  rewrite Z.mod_mul, Z.div_mul by lia.
  replace (2 * 0) with 0 by lia.
  destruct (Z.compare_spec 0 d); lia.
Qed.

Lemma rne_div_down (q r d : Z) :
  0 <= r -> 2 * r < d -> rne_div (q * d + r) d = q.
Proof.
  intros Hr Hd. unfold rne_div.
  assert (Hq : (q * d + r) / d = q).
  { rewrite Z.add_comm, Z.div_add by lia. rewrite Z.div_small; lia. }
  assert (Hm : (q * d + r) mod d = r).
  { rewrite Z.add_comm, Z.mod_add by lia. apply Z.mod_small; lia. }
  rewrite Hq, Hm.
  destruct (Z.compare_spec (2 * r) d); lia.
Qed.

Lemma rne_div_mono (n n' d : Z) :
  0 < d -> n <= n' -> rne_div n d <= rne_div n' d.
Proof.
  intros Hd Hn.
  pose proof (Z.div_le_mono n n' d Hd Hn) as Hq.
  pose proof (Z.div_mod n d ltac:(lia)) as E1.
  pose proof (Z.div_mod n' d ltac:(lia)) as E2.
  pose proof (Z.mod_pos_bound n d Hd) as B1.
  pose proof (Z.mod_pos_bound n' d Hd) as B2.
  unfold rne_div.
  destruct (Z.eq_dec (n / d) (n' / d)) as [Heq|Hne].
  - rewrite <- Heq in *.
    destruct (Z.compare_spec (2 * (n mod d)) d);
      destruct (Z.compare_spec (2 * (n' mod d)) d);
      destruct (Z.even (n / d)); lia.
  - destruct (2 * (n mod d) ?= d); destruct (2 * (n' mod d) ?= d);
      destruct (Z.even (n / d)); destruct (Z.even (n' / d)); lia.
Qed.

Lemma rne_div_scale (n d c : Z) :
  0 < c -> 0 < d -> rne_div (n * c) (d * c) = rne_div n d.
Proof.
  intros Hc Hd. unfold rne_div.
  rewrite Z.div_mul_cancel_r by lia.
  rewrite Zmult_mod_distr_r.
  destruct (Z.compare_spec (2 * (n mod d * c)) (d * c));
    destruct (Z.compare_spec (2 * (n mod d)) d); try reflexivity; nia.
Qed.

(** A power of two above (below) the quotient stays above (below) the
    rounded quotient. *)
Lemma rne_div_le_pow2 (n d s j : Z) :
  0 < d -> 0 <= s <= j -> n <= 2 ^ j * d ->
  rne_div n (d * 2 ^ s) * 2 ^ s <= 2 ^ j.
Proof.
  intros Hd Hs Hn.
  assert (Hp : 0 < 2 ^ s) by (apply Z.pow_pos_nonneg; lia).
  assert (Hj : 2 ^ j = 2 ^ (j - s) * 2 ^ s).
  { rewrite <- Z.pow_add_r by lia. f_equal. lia. }
  assert (Hle : rne_div n (d * 2 ^ s) <= 2 ^ (j - s)).
  { rewrite <- (rne_div_exact (2 ^ (j - s)) (d * 2 ^ s)) by lia.
    apply rne_div_mono; [lia|]. rewrite Hj in Hn. lia. }
  rewrite Hj. apply Z.mul_le_mono_nonneg_r; lia.
Qed.

Lemma rne_div_ge_pow2 (n d s j : Z) :
  0 < d -> 0 <= s <= j -> 2 ^ j * d <= n ->
  2 ^ j <= rne_div n (d * 2 ^ s) * 2 ^ s.
Proof.
  intros Hd Hs Hn.
  assert (Hp : 0 < 2 ^ s) by (apply Z.pow_pos_nonneg; lia).
  assert (Hj : 2 ^ j = 2 ^ (j - s) * 2 ^ s).
  { rewrite <- Z.pow_add_r by lia. f_equal. lia. }
  assert (Hle : 2 ^ (j - s) <= rne_div n (d * 2 ^ s)).
  { rewrite <- (rne_div_exact (2 ^ (j - s)) (d * 2 ^ s)) at 1 by lia.
    apply rne_div_mono; [lia|]. rewrite Hj in Hn. lia. }
  rewrite Hj at 1. apply Z.mul_le_mono_nonneg_r; lia.
Qed.

(** ** Rounding to a format *)

(** The formats of this file: at least one significant bit, and a smallest
    number that is a multiple of the unit. *)
Lemma good_binary32 : good_format binary32.
Proof. split; simpl; lia. Qed.

Lemma good_binary64 : good_format binary64.
Proof. split; simpl; lia. Qed.

Lemma shift_of_nonneg (f : format) (n d : Z) :
  good_format f -> 0 <= shift_of f n d.
Proof. intros [_ Hl]. unfold shift_of. lia. Qed.

Lemma round_pos_nonneg (f : format) (n d : Z) :
  good_format f -> 0 <= n -> 0 < d -> 0 <= round_pos f n d.
Proof.
  intros Hf Hn Hd. unfold round_pos.
  pose proof (shift_of_nonneg f n d Hf) as Hs.
  assert (0 < 2 ^ shift_of f n d) by (apply Z.pow_pos_nonneg; lia).
  apply Z.mul_nonneg_nonneg; [|lia].
  apply rne_div_nonneg; lia.
Qed.

Lemma round_pos_0 (f : format) (d : Z) :
  good_format f -> 0 < d -> round_pos f 0 d = 0.
Proof.
  intros Hf Hd. unfold round_pos.
  pose proof (shift_of_nonneg f 0 d Hf) as Hs.
  assert (0 < 2 ^ shift_of f 0 d) by (apply Z.pow_pos_nonneg; lia).
  pose proof (rne_div_exact 0 (d * 2 ^ shift_of f 0 d) ltac:(lia)) as E.
  rewrite Z.mul_0_l in E. rewrite E. lia.
Qed.

(** A number with at most [prec] significant bits, not below the smallest
    number of the format, is not changed. *)
Lemma round_pos_exact (f : format) (m e : Z) :
  good_format f -> 0 <= m < 2 ^ prec f -> low f <= e ->
  round_pos f (m * 2 ^ e) 1 = m * 2 ^ e.
Proof.
  intros [Hp Hl] Hm He.
  destruct (Z.eq_dec m 0) as [->|Hm0].
  { rewrite Z.mul_0_l. apply round_pos_0; [split|]; lia. }
  unfold round_pos, shift_of. rewrite Z.div_1_r, Z.mul_1_l.
  rewrite Z.log2_mul_pow2 by lia.
  assert (Hlog : Z.log2 m < prec f) by (apply Z.log2_lt_pow2; lia).
  set (s := Z.max (low f) (e + Z.log2 m - prec f + 1)).
  assert (Hs : 0 <= s <= e) by (unfold s; lia).
  assert (He' : 2 ^ e = 2 ^ (e - s) * 2 ^ s).
  { rewrite <- Z.pow_add_r by lia. f_equal. lia. }
  rewrite He' at 1. rewrite Z.mul_assoc.
  rewrite rne_div_exact by (apply Z.pow_pos_nonneg; lia).
  rewrite He'. lia.
Qed.

Lemma round_pos_pow2 (f : format) (j : Z) :
  good_format f -> low f <= j -> round_pos f (2 ^ j) 1 = 2 ^ j.
Proof.
  intros Hf Hj.
  pose proof (round_pos_exact f 1 j Hf) as H.
  rewrite Z.mul_1_l in H. apply H; [|lia].
  destruct Hf. split; [lia|]. apply Z.pow_gt_1; lia.
Qed.

Lemma round_pos_le_pow2 (f : format) (n d j : Z) :
  good_format f -> 0 <= n -> 0 < d -> low f <= j -> n <= 2 ^ j * d ->
  round_pos f n d <= 2 ^ j.
Proof.
  intros [Hp Hl] Hn Hd Hj Hle. unfold round_pos.
  apply rne_div_le_pow2; [lia| |lia].
  unfold shift_of. split; [lia|].
  apply Z.max_lub; [lia|].
  destruct (Z.eq_dec (n / d) 0) as [->|Hq]; [simpl; lia|].
  assert (Hqpos : 0 < n / d).
  { pose proof (Z.div_pos n d Hn Hd). lia. }
  assert (n / d <= 2 ^ j).
  { apply Z.div_le_upper_bound; lia. }
  assert (Z.log2 (n / d) <= j).
  { rewrite <- (Z.log2_pow2 j) by lia. apply Z.log2_le_mono. lia. }
  lia.
Qed.

Lemma round_pos_ge_pow2 (f : format) (n d j : Z) :
  good_format f -> 0 < d -> low f <= j -> 2 ^ j * d <= n ->
  2 ^ j <= round_pos f n d.
Proof.
  intros [Hp Hl] Hd Hj Hle. unfold round_pos.
  assert (H2j : 0 < 2 ^ j) by (apply Z.pow_pos_nonneg; lia).
  assert (Hq : 2 ^ j <= n / d).
  { apply Z.div_le_lower_bound; lia. }
  pose proof (Z.log2_spec (n / d) ltac:(lia)) as [Hlo Hhi].
  set (b := Z.log2 (n / d)) in *.
  assert (Hjb : j <= b).
  { rewrite <- (Z.log2_pow2 j) by lia. apply Z.log2_le_mono. lia. }
  assert (Hbd : 2 ^ b * d <= n).
  { pose proof (Z.mul_div_le n d Hd). nia. }
  assert (Hjb2 : 2 ^ j <= 2 ^ b) by (apply Z.pow_le_mono_r; lia).
  etransitivity; [exact Hjb2|].
  apply rne_div_ge_pow2; [lia| |lia].
  unfold shift_of. fold b. lia.
Qed.

(** Rounding is monotone. *)
Lemma round_pos_mono (f : format) (n n' d : Z) :
  good_format f -> 0 <= n <= n' -> 0 < d ->
  round_pos f n d <= round_pos f n' d.
Proof.
  intros Hf Hn Hd. pose proof Hf as [Hp Hl].
  pose proof (Z.div_le_mono n n' d Hd ltac:(lia)) as Hq.
  pose proof (Z.div_pos n d ltac:(lia) Hd) as Hq0.
  pose proof (Z.log2_le_mono _ _ Hq) as Hlog.
  destruct (Z.eq_dec (shift_of f n d) (shift_of f n' d)) as [Hs|Hs].
  - unfold round_pos. rewrite Hs.
    pose proof (shift_of_nonneg f n' d Hf).
    assert (0 < 2 ^ shift_of f n' d) by (apply Z.pow_pos_nonneg; lia).
    apply Z.mul_le_mono_nonneg_r; [lia|].
    apply rne_div_mono; lia.
  - assert (Hlt : shift_of f n d < shift_of f n' d /\
                  shift_of f n' d = Z.log2 (n' / d) - prec f + 1 /\
                  Z.log2 (n / d) < Z.log2 (n' / d)).
    { unfold shift_of in *. lia. }
    destruct Hlt as (Hlt & Hs' & Hb).
    set (b' := Z.log2 (n' / d)) in *.
    assert (Hb'pos : 0 < b') by (pose proof (Z.log2_nonneg (n / d)); lia).
    assert (Hq' : 0 < n' / d).
    { destruct (Z.eq_dec (n' / d) 0) as [E|E]; [|lia].
      unfold b' in Hb'pos. rewrite E in Hb'pos. simpl in Hb'pos. lia. }
    pose proof (Z.log2_spec (n' / d) Hq') as [Hlo' _]. fold b' in Hlo'.
    transitivity (2 ^ b').
    + apply round_pos_le_pow2; [exact Hf|lia|lia| |].
      { unfold shift_of in *. lia. }
      assert (n / d < 2 ^ b').
      { destruct (Z.eq_dec (n / d) 0) as [E|E].
        - rewrite E. apply Z.pow_pos_nonneg; lia.
        - pose proof (Z.log2_spec (n / d) ltac:(lia)) as [_ Hhi].
          assert (2 ^ Z.succ (Z.log2 (n / d)) <= 2 ^ b')
            by (apply Z.pow_le_mono_r; lia).
          lia. }
      pose proof (Z.div_mod n d ltac:(lia)).
      pose proof (Z.mod_pos_bound n d Hd). nia.
    + apply round_pos_ge_pow2; [exact Hf|lia| |].
      { unfold shift_of in *. lia. }
      pose proof (Z.mul_div_le n' d Hd). nia.
Qed.

Lemma round_pos_scale (f : format) (n d c : Z) :
  0 < c -> 0 < d -> round_pos f (n * c) (d * c) = round_pos f n d.
Proof.
  intros Hc Hd. unfold round_pos, shift_of.
  rewrite Z.div_mul_cancel_r by lia.
  set (s := Z.max _ _).
  replace (d * c * 2 ^ s) with (d * 2 ^ s * c) by lia.
  destruct (Z_lt_le_dec s 0) as [Hs|Hs].
  - rewrite (Z.pow_neg_r 2 s Hs). lia.
  - rewrite rne_div_scale; [reflexivity|lia|].
    assert (0 < 2 ^ s) by (apply Z.pow_pos_nonneg; lia). lia.
Qed.

(** ** Signed rounding, conversions *)

Lemma U_pos : 0 < U.
Proof. unfold U, unit_exp. apply Z.pow_pos_nonneg; lia. Qed.

(** The unit, split at a bit position. *)
Lemma U_eq (e : Z) : 0 <= e <= 1074 -> U = 2 ^ (1074 - e) * 2 ^ e.
Proof.
  intros He. unfold U, unit_exp. rewrite <- Z.pow_add_r by lia.
  f_equal. lia.
Qed.

Lemma round_scale (f : format) (n d c : Z) :
  0 < c -> 0 < d -> round f (n * c) (d * c) = round f n d.
Proof.
  intros Hc Hd. unfold round.
  replace (Z.abs (n * c)) with (Z.abs n * c) by nia.
  rewrite round_pos_scale by lia.
  replace (n * c <? 0) with (n <? 0)
    by (destruct (Z.ltb_spec n 0); destruct (Z.ltb_spec (n * c) 0); nia).
  replace (Z.sgn (n * c)) with (Z.sgn n) by nia.
  reflexivity.
Qed.

(** No overflow below a power of two the format can hold. *)
Lemma round_nonneg_fin (f : format) (n d j : Z) :
  good_format f -> 0 <= n -> 0 < d ->
  low f <= j < emax f + unit_exp -> n <= 2 ^ j * d ->
  round f n d = Fin (round_pos f n d) /\ 0 <= round_pos f n d <= 2 ^ j.
Proof.
  intros Hf Hn Hd Hj Hle.
  pose proof (round_pos_le_pow2 f n d j Hf Hn Hd ltac:(lia) Hle) as Hub.
  pose proof (round_pos_nonneg f n d Hf Hn Hd) as Hlb.
  split; [|lia]. unfold round.
  rewrite Z.abs_eq by lia.
  assert (Hlt : 2 ^ j < 2 ^ (emax f + unit_exp)).
  { destruct Hf. apply Z.pow_lt_mono_r; lia. }
  destruct (Z.leb_spec (2 ^ (emax f + unit_exp)) (round_pos f n d)); [lia|].
  f_equal.
  destruct (Z.eq_dec n 0) as [->|Hn0].
  - rewrite round_pos_0 by assumption. reflexivity.
  - rewrite Z.sgn_pos by lia. lia.
Qed.

(** Rounding is odd: a negative number rounds like its opposite. *)
Lemma round_neg (f : format) (n d : Z) :
  good_format f -> n < 0 -> 0 < d ->
  round f n d = Inf true \/
  (round f n d = Fin (- round_pos f (- n) d) /\ 0 <= round_pos f (- n) d).
Proof.
  intros Hf Hn Hd. unfold round.
  rewrite Z.abs_neq by lia.
  pose proof (round_pos_nonneg f (- n) d Hf ltac:(lia) Hd).
  destruct (Z.ltb_spec n 0); [|lia].
  destruct (Z.leb_spec (2 ^ (emax f + unit_exp)) (round_pos f (- n) d));
    [left; reflexivity|right].
  split; [|assumption]. f_equal. rewrite Z.sgn_neg by lia. lia.
Qed.

Lemma round_not_nan (f : format) (n d : Z) : round f n d <> NaN.
Proof.
  unfold round. destruct (_ <=? _); discriminate.
Qed.

(** An integer of at most [prec] bits converts exactly. *)
Lemma of_int_exact (f : format) (z : Z) :
  good_format f -> low f <= unit_exp -> prec f <= emax f ->
  Z.abs z < 2 ^ prec f ->
  of_int f z = Fin (z * U).
Proof.
  intros Hf Hl Hp Hz. pose proof Hf as [Hp0 Hl0].
  unfold of_int, of_ratio, round.
  replace (Z.abs (z * U)) with (Z.abs z * 2 ^ unit_exp)
    by (unfold U; pose proof U_pos; unfold U in *; nia).
  rewrite round_pos_exact by (try assumption; lia).
  assert (Hlt : Z.abs z * 2 ^ unit_exp < 2 ^ (emax f + unit_exp)).
  { rewrite Z.pow_add_r by (unfold unit_exp; lia).
    assert (2 ^ prec f <= 2 ^ emax f) by (apply Z.pow_le_mono_r; lia).
    assert (0 < 2 ^ unit_exp) by (apply Z.pow_pos_nonneg; unfold unit_exp; lia).
    nia. }
  destruct (Z.leb_spec (2 ^ (emax f + unit_exp)) (Z.abs z * 2 ^ unit_exp));
    [lia|].
  f_equal. pose proof U_pos. unfold U in *.
  replace (Z.sgn (z * 2 ^ unit_exp)) with (Z.sgn z) by nia.
  nia.
Qed.

Lemma of_int32_exact (z : Z) :
  Z.abs z < 2 ^ 24 -> of_int binary32 z = Fin (z * U).
Proof.
  intros Hz. apply of_int_exact; [apply good_binary32| | |exact Hz];
    simpl; unfold unit_exp; lia.
Qed.

Lemma of_int64_exact (z : Z) :
  Z.abs z < 2 ^ 53 -> of_int binary64 z = Fin (z * U).
Proof.
  intros Hz. apply of_int_exact; [apply good_binary64| | |exact Hz];
    simpl; unfold unit_exp; lia.
Qed.

(** ** Rounding an integer number of units *)

Lemma round_int_0 (f : format) : round_int f 0 = 0.
Proof. reflexivity. Qed.

Lemma round_int_nonneg (f : format) (n : Z) :
  good_format f -> 0 <= n -> round_int f n = round_pos f n 1.
Proof.
  intros Hf Hn. unfold round_int.
  destruct (Z.eq_dec n 0) as [->|H0].
  - change (Z.abs 0) with 0. rewrite round_pos_0 by (auto; lia). reflexivity.
  - rewrite Z.sgn_pos, Z.abs_eq by lia. lia.
Qed.

Lemma round_int_neg (f : format) (n : Z) :
  good_format f -> n <= 0 -> round_int f n = - round_pos f (- n) 1.
Proof.
  intros Hf Hn. unfold round_int.
  destruct (Z.eq_dec n 0) as [->|H0].
  { pose proof (round_pos_0 f 1 Hf ltac:(lia)) as E.
    change (Z.abs 0) with 0. change (- 0) with 0. rewrite E. reflexivity. }
  rewrite Z.sgn_neg, Z.abs_neq by lia. lia.
Qed.

Lemma round_int_sign (f : format) (n : Z) :
  good_format f ->
  (0 <= n -> 0 <= round_int f n) /\ (n <= 0 -> round_int f n <= 0).
Proof.
  intros Hf. split; intros Hn.
  - rewrite round_int_nonneg by assumption.
    apply round_pos_nonneg; [assumption|lia|lia].
  - rewrite round_int_neg by assumption.
    pose proof (round_pos_nonneg f (- n) 1 Hf ltac:(lia) ltac:(lia)). lia.
Qed.

Lemma round_int_mono (f : format) (n n' : Z) :
  good_format f -> n <= n' -> round_int f n <= round_int f n'.
Proof.
  intros Hf Hn.
  destruct (round_int_sign f n Hf) as [Hp Hm].
  destruct (round_int_sign f n' Hf) as [Hp' Hm'].
  destruct (Z_le_gt_dec 0 n) as [H0|H0].
  - rewrite !round_int_nonneg by (auto; lia).
    apply round_pos_mono; [assumption|lia|lia].
  - destruct (Z_le_gt_dec 0 n') as [H0'|H0'].
    + specialize (Hm ltac:(lia)). specialize (Hp' H0'). lia.
    + rewrite !round_int_neg by (auto; lia).
      pose proof (round_pos_mono f (- n') (- n) 1 Hf ltac:(lia) ltac:(lia)).
      lia.
Qed.

Lemma round_int_pow2 (f : format) (j : Z) :
  good_format f -> low f <= j -> round_int f (2 ^ j) = 2 ^ j.
Proof.
  intros Hf Hj. pose proof Hf as [_ Hl].
  assert (0 < 2 ^ j) by (apply Z.pow_pos_nonneg; lia).
  rewrite round_int_nonneg by (auto; lia).
  apply round_pos_pow2; assumption.
Qed.

(** Within [[-2^j, 2^j]] nothing overflows, and the result stays there. *)
Lemma round_int_spec (f : format) (n j : Z) :
  good_format f -> low f <= j < emax f + unit_exp ->
  - 2 ^ j <= n <= 2 ^ j ->
  round f n 1 = Fin (round_int f n) /\ - 2 ^ j <= round_int f n <= 2 ^ j.
Proof.
  intros Hf Hj Hn. pose proof Hf as [_ Hl].
  assert (H2j : 0 < 2 ^ j) by (apply Z.pow_pos_nonneg; lia).
  assert (Hb : - 2 ^ j <= round_int f n <= 2 ^ j).
  { pose proof (round_int_mono f n (2 ^ j) Hf ltac:(lia)) as H1.
    pose proof (round_int_mono f (- 2 ^ j) n Hf ltac:(lia)) as H2.
    rewrite round_int_pow2 in H1 by (auto; lia).
    rewrite round_int_neg, Z.opp_involutive, round_pos_pow2 in H2
      by (auto; lia).
    lia. }
  split; [|exact Hb].
  unfold round. fold (round_int f n).
  assert (Hlt : 2 ^ j < 2 ^ (emax f + unit_exp))
    by (apply Z.pow_lt_mono_r; lia).
  assert (Habs : round_pos f (Z.abs n) 1 = Z.abs (round_int f n)).
  { pose proof (round_pos_nonneg f (Z.abs n) 1 Hf ltac:(lia) ltac:(lia)).
    unfold round_int.
    destruct (Z.sgn_spec n) as [[? ->]|[[<- ->]|[? ->]]]; [lia| |lia].
    change (Z.abs 0) with 0. rewrite round_pos_0 by (auto; lia).
    reflexivity. }
  rewrite Habs.
  destruct (Z.leb_spec (2 ^ (emax f + unit_exp)) (Z.abs (round_int f n)));
    [lia|reflexivity].
Qed.

(** ** A coarser unit *)

Lemma good_coarse (f : format) (e : Z) : good_format f -> good_format (coarse f e).
Proof. intros [Hp Hl]. split; simpl; lia. Qed.

Lemma round_pos_coarse (f : format) (n e : Z) :
  good_format f -> 0 <= e -> 0 <= n ->
  round_pos f (n * 2 ^ e) 1 = round_pos (coarse f e) n 1 * 2 ^ e.
Proof.
  intros Hf He Hn. pose proof Hf as [Hp Hl].
  assert (H2e : 0 < 2 ^ e) by (apply Z.pow_pos_nonneg; lia).
  destruct (Z.eq_dec n 0) as [->|Hn0].
  { rewrite Z.mul_0_l, !round_pos_0 by (auto using good_coarse; lia).
    reflexivity. }
  unfold round_pos, shift_of. rewrite !Z.div_1_r, !Z.mul_1_l.
  rewrite Z.log2_mul_pow2 by lia. cbn [prec low coarse].
  set (L := Z.log2 n - prec f + 1).
  replace (e + Z.log2 n - prec f + 1) with (e + L) by (unfold L; lia).
  destruct (Z_le_gt_dec 0 (Z.max (low f - e) L)) as [Hc|Hc].
  - replace (Z.max (low f) (e + L))
      with (Z.max (Z.max 0 (low f - e)) L + e) by lia.
    set (s := Z.max (Z.max 0 (low f - e)) L).
    assert (Hs : 0 <= s) by (unfold s; lia).
    rewrite Z.pow_add_r by lia.
    rewrite rne_div_scale by (try apply Z.pow_pos_nonneg; lia).
    lia.
  - replace (Z.max (Z.max 0 (low f - e)) L) with 0 by lia.
    set (s := Z.max (low f) (e + L)).
    assert (Hs : 0 <= s <= e) by (unfold s; lia).
    assert (E : 2 ^ e = 2 ^ (e - s) * 2 ^ s).
    { rewrite <- Z.pow_add_r by lia. f_equal. lia. }
    rewrite E at 1. rewrite Z.mul_assoc.
    rewrite rne_div_exact by (apply Z.pow_pos_nonneg; lia).
    change (2 ^ 0) with 1.
    rewrite <- (Z.mul_1_r n) at 2. rewrite rne_div_exact by lia.
    rewrite E. lia.
Qed.

Lemma round_int_coarse (f : format) (n e : Z) :
  good_format f -> 0 <= e ->
  round_int f (n * 2 ^ e) = round_int (coarse f e) n * 2 ^ e.
Proof.
  intros Hf He. unfold round_int.
  assert (H2e : 0 < 2 ^ e) by (apply Z.pow_pos_nonneg; lia).
  replace (Z.abs (n * 2 ^ e)) with (Z.abs n * 2 ^ e) by nia.
  replace (Z.sgn (n * 2 ^ e)) with (Z.sgn n) by nia.
  rewrite round_pos_coarse by (auto; lia). lia.
Qed.

(** ** The threshold of the brightness walk

    For an [int] sum and size the rounded product [0.66 * size] decides
    [sum < 0.66 * size] exactly as the rational one does. *)

Lemma threshold_value :
  k_brightness_heuristic_threshold = Fin (5944751508129055 * 2 ^ 1021).
Proof. vm_compute. reflexivity. Qed.

Lemma U_split : U = 2 ^ 53 * 2 ^ 1021.
Proof. apply (U_eq 1021). lia. Qed.

Lemma threshold_product (size : Z) :
  0 <= size <= Int.INT_MAX ->
  mul binary64 k_brightness_heuristic_threshold (of_int binary64 size)
  = Fin (round_pos binary64 (5944751508129055 * size * 2 ^ 1021) 1).
Proof.
  intros Hs. unfold Int.INT_MAX in Hs.
  rewrite threshold_value, of_int64_exact by lia.
  unfold mul.
  replace (5944751508129055 * 2 ^ 1021 * (size * U))
    with (5944751508129055 * size * 2 ^ 1021 * U) by lia.
  rewrite <- (Z.mul_1_l U) at 2.
  rewrite round_scale by (pose proof U_pos; lia).
  assert (HP : 0 < 2 ^ 1021) by (apply Z.pow_pos_nonneg; lia).
  assert (H84 : 2 ^ (84 + 1021) = 2 ^ 84 * 2 ^ 1021)
    by (apply Z.pow_add_r; lia).
  destruct (round_nonneg_fin binary64
              (5944751508129055 * size * 2 ^ 1021) 1 (84 + 1021))
    as [E _]; [apply good_binary64|lia|lia| |rewrite H84; nia|exact E].
  unfold binary64, unit_exp; simpl; lia.
Qed.

Lemma threshold_round_above (size sum : Z) :
  0 <= size <= Int.INT_MAX -> 0 <= sum <= Int.INT_MAX ->
  33 * size < 50 * sum ->
  round_pos binary64 (5944751508129055 * size * 2 ^ 1021) 1 <= sum * U.
Proof.
  intros Hs Hsum Hlt. unfold Int.INT_MAX in *.
  assert (HP : 0 < 2 ^ 1021) by (apply Z.pow_pos_nonneg; lia).
  change U with (2 ^ 1074).
  assert (E : round_pos binary64 (sum * 2 ^ 1074) 1 = sum * 2 ^ 1074).
  { apply round_pos_exact; [apply good_binary64| |]; simpl; lia. }
  rewrite <- E.
  apply round_pos_mono; [apply good_binary64| |lia].
  change (2 ^ 1074) with U. rewrite U_split. nia.
Qed.

Lemma threshold_round_below (size sum : Z) :
  0 <= size <= Int.INT_MAX -> 0 <= sum <= Int.INT_MAX ->
  50 * sum < 33 * size ->
  sum * U < round_pos binary64 (5944751508129055 * size * 2 ^ 1021) 1.
Proof.
  intros Hs Hsum Hlt. unfold Int.INT_MAX in *.
  assert (HP : 0 < 2 ^ 1021) by (apply Z.pow_pos_nonneg; lia).
  assert (HU : 2 ^ 1068 = 2 ^ 47 * 2 ^ 1021)
    by (rewrite <- Z.pow_add_r by lia; reflexivity).
  apply Z.lt_le_trans with ((sum * 64 + 1) * 2 ^ 1068).
  - rewrite U_split, HU. nia.
  - assert (E : round_pos binary64 ((sum * 64 + 1) * 2 ^ 1068) 1
                = (sum * 64 + 1) * 2 ^ 1068).
    { apply round_pos_exact; [apply good_binary64| |]; simpl; lia. }
    rewrite <- E.
    apply round_pos_mono; [apply good_binary64| |lia].
    rewrite HU. nia.
Qed.

Lemma threshold_round_tie (size sum : Z) :
  0 < size <= Int.INT_MAX -> 50 * sum = 33 * size ->
  round_pos binary64 (5944751508129055 * size * 2 ^ 1021) 1 = sum * U.
Proof.
  intros Hs Htie. unfold Int.INT_MAX in *.
  assert (HP : 0 < 2 ^ 1021) by (apply Z.pow_pos_nonneg; lia).
  set (N := 5944751508129055 * size).
  assert (HN : 2 ^ 52 <= N < 2 ^ 84) by (unfold N; lia).
  assert (Hlog : 52 <= Z.log2 N < 84).
  { split.
    - rewrite <- (Z.log2_pow2 52) by lia. apply Z.log2_le_mono. lia.
    - apply Z.log2_lt_pow2; lia. }
  pose proof (Z.log2_spec N ltac:(lia)) as [Hlo Hhi].
  set (t := Z.log2 N - 52).
  assert (Ht : 0 <= t <= 31) by (unfold t; lia).
  unfold round_pos, shift_of. rewrite Z.div_1_r, Z.mul_1_l.
  rewrite Z.log2_mul_pow2 by lia.
  replace (Z.max (low binary64) (1021 + Z.log2 N - prec binary64 + 1))
    with (t + 1021) by (simpl; unfold t; lia).
  rewrite (Z.pow_add_r 2 t 1021) by lia.
  assert (H2t : 0 < 2 ^ t) by (apply Z.pow_pos_nonneg; lia).
  rewrite rne_div_scale by lia.
  assert (Hsum53 : 2 ^ 53 = 2 ^ (53 - t) * 2 ^ t).
  { rewrite <- Z.pow_add_r by lia. f_equal. lia. }
  assert (HNt : N < 2 ^ 53 * 2 ^ t).
  { replace (Z.succ (Z.log2 N)) with (53 + t) in Hhi by (unfold t; lia).
    rewrite Z.pow_add_r in Hhi by lia. exact Hhi. }
  set (delta := N - sum * 2 ^ 53).
  assert (Hdelta : 50 * delta = 14 * size) by (unfold delta, N; lia).
  replace N with (sum * 2 ^ (53 - t) * 2 ^ t + delta)
    by (unfold delta; rewrite <- Z.mul_assoc, <- Hsum53; lia).
  rewrite rne_div_down; [| lia |].
  - rewrite U_split. rewrite Hsum53. lia.
  - unfold N in HNt. nia.
Qed.

Lemma walk_guard_exact (size offset sum : Z) :
  0 <= size <= Int.INT_MAX -> 0 <= sum <= Int.INT_MAX ->
  walk_guard size offset sum = (offset <? 255) && (100 * sum <? 66 * size).
Proof.
  intros Hs Hsum. unfold walk_guard. f_equal.
  rewrite threshold_product by assumption.
  unfold Int.INT_MAX in *.
  rewrite of_int64_exact by lia. unfold ltb.
  destruct (Z.ltb_spec (100 * sum) (66 * size)) as [Hlt|Hge].
  - apply Z.ltb_lt. apply threshold_round_below; unfold Int.INT_MAX; lia.
  - apply Z.ltb_ge.
    destruct (Z.eq_dec (50 * sum) (33 * size)) as [Heq|Hne].
    + destruct (Z.eq_dec size 0) as [->|Hs0].
      * replace sum with 0 by lia. simpl (5944751508129055 * 0 * _).
        rewrite round_pos_0; [lia|apply good_binary64|lia].
      * rewrite (threshold_round_tie size sum); unfold Int.INT_MAX; lia.
    + apply threshold_round_above; unfold Int.INT_MAX; lia.
Qed.

(** * The brightness heuristic *)

(** ** The histogram loop *)

Lemma byte_values_lookup (v : byte) : byte_values !! Byte.to_nat v = Some v.
Proof.
  unfold byte_values. rewrite list_lookup_fmap.
  pose proof (Byte.to_nat_bounded v).
  rewrite lookup_seq_lt by lia. simpl.
  rewrite Byte.of_to_nat. reflexivity.
Qed.

Lemma byte_values_length : length byte_values = 256%nat.
Proof. reflexivity. Qed.

Lemma histogram_length (data : list byte) : length (histogram data) = 256%nat.
Proof. unfold histogram. rewrite length_fmap. apply byte_values_length. Qed.

Lemma histogram_lookup (data : list byte) (v : byte) :
  histogram data !! Byte.to_nat v = Some (occurrences v data).
Proof.
  unfold histogram. rewrite list_lookup_fmap, byte_values_lookup. reflexivity.
Qed.

Lemma occurrences_nil (v : byte) : occurrences v [] = 0.
Proof. reflexivity. Qed.

Lemma occurrences_cons (v d : byte) (data : list byte) :
  occurrences v (d :: data)
  = (if Byte.eqb v d then 1 else 0) + occurrences v data.
Proof.
  unfold occurrences. simpl. destruct (Byte.eqb v d); simpl length; lia.
Qed.

Lemma occurrences_nonneg (v : byte) (data : list byte) : 0 <= occurrences v data.
Proof. unfold occurrences. lia. Qed.

Lemma byte_index_inj (v d : byte) :
  Byte.to_nat v = Byte.to_nat d -> v = d.
Proof.
  intros E. apply (f_equal Byte.of_nat) in E.
  rewrite !Byte.of_to_nat in E. congruence.
Qed.

Lemma byte_eqb_index (v d : byte) :
  Byte.eqb v d = bool_decide (Byte.to_nat v = Byte.to_nat d).
Proof.
  destruct (Byte.eqb v d) eqn:E.
  - apply Byte.byte_dec_bl in E. subst. symmetry. apply bool_decide_eq_true. reflexivity.
  - symmetry. apply bool_decide_eq_false. intros H.
    apply byte_index_inj in H. subst.
    rewrite Byte.byte_dec_lb in E by reflexivity. discriminate.
Qed.

Lemma sum_list_Z_insert (l : list Z) (i : nat) (c x : Z) :
  l !! i = Some c -> sum_list_Z (<[i := x]> l) = sum_list_Z l - c + x.
Proof.
  revert i. induction l as [|a l IH]; intros [|i] H; simpl in *; try discriminate.
  - injection H as ->. lia.
  - rewrite (IH i H). lia.
Qed.

(** One round of the loop never leaves the vector, and adds one to the
    bucket of the byte it reads. *)
Lemma count_loop_spec (data : list byte) (n : nat) :
  forall (i : nat) (counts : list Z),
    length counts = 256%nat ->
    (i + n <= length data)%nat ->
    (forall j c, counts !! j = Some c -> 0 <= c /\ c + Z.of_nat n < 2 ^ 64) ->
    exists counts',
      count_loop data counts i n = Some counts' /\
      length counts' = 256%nat /\
      sum_list_Z counts' = sum_list_Z counts + Z.of_nat n /\
      forall v c, counts !! Byte.to_nat v = Some c ->
        counts' !! Byte.to_nat v
        = Some (c + occurrences v (take n (drop i data))).
Proof.
  induction n as [|n IH]; intros i counts Hlen Hi Hb.
  - exists counts. simpl. repeat split; [assumption|lia|].
    intros v c Hc. rewrite occurrences_nil, Z.add_0_r. exact Hc.
  - destruct (lookup_lt_is_Some_2 data i ltac:(lia)) as [d Hd].
    pose proof (Byte.to_nat_bounded d) as Hdb.
    destruct (lookup_lt_is_Some_2 counts (Byte.to_nat d) ltac:(lia)) as [c Hc].
    destruct (Hb _ _ Hc) as [Hc0 Hc1].
    assert (Hw : Int.wrap_u64 (c + 1) = c + 1).
    { unfold Int.wrap_u64. apply Z.mod_small. lia. }
    simpl count_loop. unfold count_byte. rewrite Hd. simpl. rewrite Hc. simpl.
    rewrite Hw.
    destruct (IH (S i) (<[Byte.to_nat d := c + 1]> counts)) as (counts' & E & L & S & P).
    + rewrite length_insert. exact Hlen.
    + lia.
    + intros j x Hj.
      destruct (decide (Byte.to_nat d = j)) as [<-|Hne].
      * rewrite list_lookup_insert_eq in Hj by lia. injection Hj as <-. lia.
      * rewrite list_lookup_insert_ne in Hj by exact Hne.
        destruct (Hb _ _ Hj). lia.
    + exists counts'. split; [exact E|]. split; [exact L|]. split.
      * rewrite S, (sum_list_Z_insert counts _ c) by exact Hc. lia.
      * intros v x Hx.
        rewrite (drop_S data d i Hd). rewrite firstn_cons.
        rewrite occurrences_cons, byte_eqb_index.
        destruct (decide (Byte.to_nat v = Byte.to_nat d)) as [Heq|Hne].
        -- rewrite bool_decide_eq_true_2 by exact Heq.
           rewrite Heq in Hx |- *. rewrite Hc in Hx. injection Hx as <-.
           rewrite <- Heq.
           rewrite (P v (c + 1)).
           ++ f_equal. lia.
           ++ rewrite Heq. apply list_lookup_insert_eq. lia.
        -- rewrite bool_decide_eq_false_2 by exact Hne.
           rewrite (P v x).
           ++ f_equal.
           ++ rewrite list_lookup_insert_ne by congruence. exact Hx.
Qed.

(** The loop computes the histogram. *)
Lemma count_loop_histogram (data : list byte) :
  Z.of_nat (length data) <= Int.INT_MAX ->
  count_loop data (replicate 256 0) 0 (length data) = Some (histogram data) /\
  sum_list_Z (histogram data) = Z.of_nat (length data).
Proof.
  intros Hmax. unfold Int.INT_MAX in Hmax.
  destruct (count_loop_spec data (length data) 0 (replicate 256 0))
    as (counts' & E & L & S & P).
  - apply length_replicate.
  - lia.
  - intros j c Hj. apply lookup_replicate in Hj as [-> _]. lia.
  - assert (Heq : counts' = histogram data).
    { apply list_eq. intros j.
      destruct (decide (j < 256)%nat) as [Hj|Hj].
      - destruct (lookup_lt_is_Some_2 byte_values j) as [v Hv];
          [rewrite byte_values_length; exact Hj|].
        assert (Hjv : j = Byte.to_nat v).
        { unfold byte_values in Hv. rewrite list_lookup_fmap in Hv.
          rewrite lookup_seq_lt in Hv by exact Hj. simpl in Hv.
          destruct (Byte.of_nat j) as [b|] eqn:Eb.
          - simpl in Hv. injection Hv as <-.
            symmetry. apply Byte.to_of_nat. exact Eb.
          - apply Byte.of_nat_None_iff in Eb. lia. }
        subst j. rewrite histogram_lookup.
        rewrite (P v 0) by (apply lookup_replicate_2; exact Hj).
        rewrite drop_0, take_ge by lia. reflexivity.
      - rewrite !(proj2 (lookup_ge_None _ _)); [reflexivity| |].
        + rewrite histogram_length. lia.
        + rewrite L. lia. }
    subst counts'. split; [exact E|].
    rewrite S. replace (sum_list_Z (replicate 256 0)) with 0 by reflexivity.
    lia.
Qed.

(** ** The sorted vector *)

Lemma sum_list_Z_app (l1 l2 : list Z) :
  sum_list_Z (l1 ++ l2) = sum_list_Z l1 + sum_list_Z l2.
Proof. induction l1 as [|a l1 IH]; simpl; [|rewrite IH]; lia. Qed.

Lemma sum_list_Z_perm (l1 l2 : list Z) :
  l1 ≡ₚ l2 -> sum_list_Z l1 = sum_list_Z l2.
Proof. induction 1; simpl; lia. Qed.

Lemma sum_list_Z_reverse (l : list Z) : sum_list_Z (reverse l) = sum_list_Z l.
Proof. apply sum_list_Z_perm. apply reverse_Permutation. Qed.

Lemma sum_list_Z_nonneg (l : list Z) :
  Forall (Z.le 0) l -> 0 <= sum_list_Z l.
Proof. induction 1; simpl; lia. Qed.

Lemma sum_list_Z_take (l : list Z) (n : nat) :
  Forall (Z.le 0) l -> 0 <= sum_list_Z (take n l) <= sum_list_Z l.
Proof.
  intros H. rewrite <- (take_drop n l) at 3. rewrite sum_list_Z_app.
  assert (0 <= sum_list_Z (take n l))
    by (apply sum_list_Z_nonneg, Forall_take, H).
  assert (0 <= sum_list_Z (drop n l))
    by (apply sum_list_Z_nonneg, Forall_drop, H).
  lia.
Qed.

Lemma sorted_lookup_le (l : list Z) :
  StronglySorted Z.le l ->
  forall i j x y, (i <= j)%nat -> l !! i = Some x -> l !! j = Some y -> x <= y.
Proof.
  induction 1 as [|a l Hs IH Ha]; intros i j x y Hij Hi Hj.
  - discriminate.
  - destruct i as [|i], j as [|j]; simpl in *; try lia.
    + injection Hi as <-. injection Hj as <-. lia.
    + injection Hi as <-. rewrite Forall_lookup in Ha. exact (Ha _ _ Hj).
    + apply (IH i j); [lia|assumption|assumption].
Qed.


Lemma sorted_histogram_input (data : list byte) :
  Z.of_nat (length data) <= Int.INT_MAX ->
  walk_input (sorted_histogram data) (Z.of_nat (length data)).
Proof.
  intros Hmax.
  assert (Hp : sorted_histogram data ≡ₚ histogram data)
    by apply merge_sort_Permutation.
  split.
  - rewrite Hp. apply histogram_length.
  - rewrite Hp. unfold histogram. apply Forall_fmap, Forall_forall.
    intros v _. apply occurrences_nonneg.
  - rewrite (sum_list_Z_perm _ _ Hp).
    apply (count_loop_histogram data Hmax).
  - apply StronglySorted_merge_sort; apply _.
  - lia.
Qed.

Lemma top_sum_0 (sc : list Z) : top_sum sc 0 = 0.
Proof. reflexivity. Qed.

Lemma top_sum_bounds (sc : list Z) (size k : Z) :
  walk_input sc size -> 0 <= top_sum sc k <= size.
Proof.
  intros [_ Hn Hs _ _]. unfold top_sum.
  rewrite <- Hs, <- (sum_list_Z_reverse sc).
  apply sum_list_Z_take. apply Forall_reverse. exact Hn.
Qed.

(** Bucket [255 - k] is the next largest after the [k] largest. *)
Lemma top_sum_succ (sc : list Z) (size k : Z) :
  walk_input sc size -> 0 <= k <= 255 ->
  exists c, sc !! Z.to_nat (255 - k) = Some c /\
            top_sum sc (k + 1) = top_sum sc k + c.
Proof.
  intros [Hl _ _ _ _] Hk.
  destruct (lookup_lt_is_Some_2 sc (Z.to_nat (255 - k)) ltac:(lia)) as [c Hc].
  exists c. split; [exact Hc|]. unfold top_sum.
  replace (Z.to_nat (k + 1)) with (S (Z.to_nat k)) by lia.
  rewrite (take_S_r _ _ c).
  - rewrite sum_list_Z_app. simpl. lia.
  - rewrite reverse_lookup by lia. rewrite <- Hc. f_equal. lia.
Qed.

(** The 255 largest of 256 buckets always hold 66% of the bytes. *)
Lemma top_sum_255 (sc : list Z) (size : Z) :
  walk_input sc size -> reached size (top_sum sc 255).
Proof.
  intros [Hl Hn Hs Hsort _]. unfold reached, top_sum.
  destruct sc as [|m0 rest]; [discriminate|].
  simpl in Hl. injection Hl as Hl.
  rewrite reverse_cons.
  replace (Z.to_nat 255) with (length (reverse rest))
    by (rewrite length_reverse; lia).
  rewrite take_app_length, sum_list_Z_reverse.
  simpl in Hs.
  assert (Hmin : Z.of_nat (length rest) * m0 <= sum_list_Z rest).
  { apply StronglySorted_inv in Hsort as [_ Hall].
    clear -Hall. induction Hall as [|a l Ha _ IH]; simpl; lia. }
  assert (Hm0 : 0 <= m0) by (inversion Hn; assumption).
  rewrite Hl in Hmin. lia.
Qed.

(** ** The walk *)

Lemma walk_unfold (fuel : nat) (counts : list Z) (size offset sum : Z) :
  walk fuel counts size offset sum
  = if walk_guard size offset sum then
      match fuel with
      | O => None
      | S fuel' =>
          c ← counts !! Z.to_nat (255 - offset);
          walk fuel' counts size (Int.wrap (offset + 1))
               (Int.wrap (Int.wrap_u64 (sum + c)))
      end
    else Some (offset, sum).
Proof. destruct fuel; reflexivity. Qed.

Lemma wrap_small (z : Z) : - 2 ^ 31 <= z <= Int.INT_MAX -> Int.wrap z = z.
Proof.
  unfold Int.INT_MAX, Int.wrap. intros H.
  rewrite Z.mod_small by lia. lia.
Qed.

Lemma wrap_u64_small (z : Z) : 0 <= z < 2 ^ 64 -> Int.wrap_u64 z = z.
Proof. unfold Int.wrap_u64. apply Z.mod_small. Qed.

(** The walk stops at the first offset whose largest buckets reach the
    threshold, or at 255. *)
Lemma walk_spec (sc : list Z) (size : Z) :
  walk_input sc size ->
  forall (fuel : nat) (offset : Z),
    0 <= offset -> offset + Z.of_nat fuel = 255 ->
    (forall j, 0 <= j < offset -> ~ reached size (top_sum sc j)) ->
    exists k,
      walk fuel sc size offset (top_sum sc offset) = Some (k, top_sum sc k) /\
      offset <= k <= 255 /\
      (reached size (top_sum sc k) \/ k = 255) /\
      (forall j, 0 <= j < k -> ~ reached size (top_sum sc j)).
Proof.
  intros Hin. pose proof (wi_size _ _ Hin) as Hsize.
  induction fuel as [|fuel IH]; intros offset H0 Hf Hprev;
    rewrite walk_unfold;
    pose proof (top_sum_bounds sc size offset Hin) as Hb;
    rewrite walk_guard_exact by (unfold Int.INT_MAX in *; lia).
  - assert (offset = 255) as -> by lia. simpl.
    exists 255. split; [reflexivity|]. split; [lia|].
    split; [right; reflexivity|exact Hprev].
  - destruct (Z.ltb_spec offset 255) as [Hlt|Hge]; [|lia].
    destruct (Z.ltb_spec (100 * top_sum sc offset) (66 * size)) as [Hs|Hs]; simpl.
    + destruct (top_sum_succ sc size offset Hin ltac:(lia)) as (c & Hc & Hsucc).
      pose proof (top_sum_bounds sc size (offset + 1) Hin) as Hb'.
      rewrite Hc. simpl.
      rewrite (wrap_small (offset + 1)) by (unfold Int.INT_MAX; lia).
      rewrite <- Hsucc.
      rewrite wrap_u64_small by (unfold Int.INT_MAX in *; lia).
      rewrite wrap_small by (unfold Int.INT_MAX in *; lia).
      destruct (IH (offset + 1)) as (k & E & Hk & Hr & Hp); [lia|lia| |].
      * intros j Hj. destruct (Z.eq_dec j offset) as [->|Hne].
        -- unfold reached. lia.
        -- apply Hprev. lia.
      * exists k. split; [exact E|]. split; [lia|]. split; assumption.
    + exists offset. split; [reflexivity|]. split; [lia|].
      split; [|exact Hprev]. left. unfold reached. lia.
Qed.

(** With 256 sorted buckets holding all the bytes the threshold is always
    reached. *)
Lemma walk_result (sc : list Z) (size : Z) :
  walk_input sc size ->
  exists k,
    walk 255 sc size 0 0 = Some (k, top_sum sc k) /\
    0 <= k <= 255 /\
    reached size (top_sum sc k) /\
    (forall j, 0 <= j < k -> ~ reached size (top_sum sc j)).
Proof.
  intros Hin.
  destruct (walk_spec sc size Hin 255 0) as (k & E & Hk & Hr & Hp);
    [lia|lia|intros j Hj; lia|].
  rewrite top_sum_0 in E.
  exists k. split; [exact E|]. split; [lia|]. split; [|exact Hp].
  destruct Hr as [Hr| ->]; [exact Hr|]. apply top_sum_255. exact Hin.
Qed.

(** ** The suggestion *)

(** [static_cast<int>(static_cast<double>(offset) / 2.5)] is the integer
    quotient [2 * offset / 5] for every offset the walk can return. *)
Lemma scaling_value : k_brightness_heuristic_scaling = Fin (5 * 2 ^ 1073).
Proof. vm_compute. reflexivity. Qed.

Lemma scaled_offset (k : Z) :
  0 <= k <= 255 ->
  to_int (div binary64 (of_int binary64 k) k_brightness_heuristic_scaling)
  = Some (2 * k / 5).
Proof.
  intros Hk.
  assert (HP : 0 < 2 ^ 1073) by (apply Z.pow_pos_nonneg; lia).
  assert (HU : U = 2 * 2 ^ 1073) by (apply (U_eq 1073); lia).
  pose proof U_pos as HU0.
  rewrite of_int64_exact, scaling_value by lia. unfold div.
  destruct (Z.eqb_spec (5 * 2 ^ 1073) 0) as [E|_]; [lia|].
  rewrite Z.sgn_pos, Z.abs_eq, Z.mul_1_l by lia.
  replace (k * U * U) with (2 * k * U * 2 ^ 1073) by (rewrite HU; lia).
  rewrite round_scale by lia.
  set (q := 2 * k / 5).
  pose proof (Z.div_mod (2 * k) 5 ltac:(lia)) as Hdm.
  pose proof (Z.mod_pos_bound (2 * k) 5 ltac:(lia)) as Hr.
  fold q in Hdm.
  assert (Hq : 0 <= q <= 102) by (unfold q; split;
    [apply Z.div_pos; lia|apply Z.div_le_upper_bound; lia]).
  destruct (round_nonneg_fin binary64 (2 * k * U) 5 (10 + 1074))
    as [-> _]; [apply good_binary64|lia|lia|simpl; unfold unit_exp; lia| |].
  { rewrite Z.pow_add_r by lia. change (2 ^ 1074) with U. lia. }
  assert (Hlo : q * U <= round_pos binary64 (2 * k * U) 5).
  { assert (E : round_pos binary64 (q * 2 ^ 1074) 1 = q * 2 ^ 1074).
    { apply round_pos_exact; [apply good_binary64| |]; simpl; lia. }
    change (2 ^ 1074) with U in E. rewrite <- E.
    rewrite <- (round_pos_scale binary64 (q * U) 1 5) by lia.
    apply round_pos_mono; [apply good_binary64|nia|lia]. }
  assert (Hhi : round_pos binary64 (2 * k * U) 5 < (q + 1) * U).
  { assert (E : round_pos binary64 ((8 * q + 7) * 2 ^ 1071) 1
                = (8 * q + 7) * 2 ^ 1071).
    { apply round_pos_exact; [apply good_binary64| |]; simpl; lia. }
    assert (HU8 : U = 8 * 2 ^ 1071) by (apply (U_eq 1071); lia).
    assert (HP8 : 0 < 2 ^ 1071) by (apply Z.pow_pos_nonneg; lia).
    apply Z.le_lt_trans with ((8 * q + 7) * 2 ^ 1071); [|rewrite HU8; lia].
    rewrite <- E.
    rewrite <- (round_pos_scale binary64 ((8 * q + 7) * 2 ^ 1071) 1 5) by lia.
    apply round_pos_mono; [apply good_binary64| |lia].
    rewrite HU8. nia. }
  unfold to_int.
  assert (Hquot : Z.quot (round_pos binary64 (2 * k * U) 5) U = q).
  { rewrite Z.quot_div_nonneg by lia.
    symmetry. apply Z.div_unique with (round_pos binary64 (2 * k * U) 5 - U * q);
      lia. }
  rewrite Hquot.
  destruct (Z.leb_spec (- 2 ^ 31) q); [|lia].
  destruct (Z.ltb_spec q (2 ^ 31)); [|lia].
  reflexivity.
Qed.

Lemma suggestBrightness_below_100 (data : list byte) :
  getDataSize data < 100 -> suggestBrightness data = Some 64.
Proof.
  unfold suggestBrightness, getDataSize. intros H.
  rewrite wrap_small by (unfold Int.INT_MAX; lia).
  destruct (Z.ltb_spec (Z.of_nat (length data)) 100); [reflexivity|lia].
Qed.

(** From 100 bytes on: the suggestion comes from the walk over the sorted
    histogram. *)
Lemma suggestBrightness_from_100 (data : list byte) :
  100 <= getDataSize data <= Int.INT_MAX ->
  exists k,
    walk 255 (sorted_histogram data) (getDataSize data) 0 0
    = Some (k, top_sum (sorted_histogram data) k) /\
    0 <= k <= 255 /\
    reached (getDataSize data) (top_sum (sorted_histogram data) k) /\
    (forall j, 0 <= j < k ->
       ~ reached (getDataSize data) (top_sum (sorted_histogram data) j)) /\
    suggestBrightness data
    = Some (Z.max k_brightness_heuristic_min
                  (k_brightness_heuristic_max - 2 * k / 5)).
Proof.
  unfold getDataSize. intros Hs.
  destruct (walk_result _ _ (sorted_histogram_input data ltac:(lia)))
    as (k & E & Hk & Hr & Hp).
  exists k. split; [exact E|]. split; [exact Hk|].
  split; [exact Hr|]. split; [exact Hp|].
  unfold suggestBrightness, getDataSize.
  rewrite wrap_small by lia.
  destruct (Z.ltb_spec (Z.of_nat (length data)) 100); [lia|].
  rewrite Nat2Z.id.
  destruct (count_loop_histogram data ltac:(lia)) as [-> _].
  cbn [mbind option_bind].
  change (sort_counts (histogram data)) with (sorted_histogram data).
  rewrite E. cbn [mbind option_bind].
  rewrite scaled_offset by exact Hk. reflexivity.
Qed.

(** ** Statements about [suggestBrightness] *)

(** The largest bucket is at least the count of any byte value. *)
Lemma top_sum_1_ge (data : list byte) (b : byte) :
  occurrences b data <= top_sum (sorted_histogram data) 1.
Proof.
  assert (Hp : sorted_histogram data ≡ₚ histogram data)
    by apply merge_sort_Permutation.
  assert (Hl : length (sorted_histogram data) = 256%nat)
    by (rewrite Hp; apply histogram_length).
  assert (Hin : occurrences b data ∈ sorted_histogram data).
  { rewrite Hp. apply list_elem_of_lookup. exists (Byte.to_nat b).
    apply histogram_lookup. }
  apply list_elem_of_lookup in Hin as [i Hi].
  pose proof (lookup_lt_Some _ _ _ Hi) as Hi256.
  destruct (lookup_lt_is_Some_2 (sorted_histogram data) 255 ltac:(lia))
    as [y Hy].
  assert (Hs : StronglySorted Z.le (sorted_histogram data))
    by (apply StronglySorted_merge_sort; apply _).
  pose proof (sorted_lookup_le _ Hs i 255%nat _ _ ltac:(lia) Hi Hy) as Hle.
  unfold top_sum. change (Z.to_nat 1) with 1%nat.
  rewrite (take_S_r _ 0 y).
  - simpl. lia.
  - rewrite reverse_lookup by lia. rewrite Hl. exact Hy.
Qed.

(** C1, as amended: for every buffer of at least 100 bytes (and of a size
    that fits [int]) in which one byte value makes up at least 66% of the
    bytes, [suggestBrightness] returns 66: the walk stops after the largest
    bucket, and its offset 1 scales down to 0. *)
Theorem suggestBrightness_concentrated (data : list byte) (b : byte) :
  100 <= getDataSize data <= Int.INT_MAX ->
  66 * getDataSize data <= 100 * occurrences b data ->
  suggestBrightness data = Some 66.
Proof.
  intros Hsize Hocc.
  destruct (suggestBrightness_from_100 data Hsize)
    as (k & _ & Hk & Hr & Hp & ->).
  pose proof (top_sum_1_ge data b) as Hmax.
  assert (Hk1 : k = 1).
  { destruct (Z_lt_le_dec 1 k) as [Hgt|Hle].
    - exfalso. apply (Hp 1); [lia|]. unfold reached. lia.
    - destruct (Z.eq_dec k 0) as [->|Hne]; [|lia].
      exfalso. rewrite top_sum_0 in Hr. unfold reached in Hr. lia. }
  subst k. reflexivity.
Qed.

Lemma suggestBrightness_concentrated_witness :
  (100 <= getDataSize (repeat x41 5000) <= Int.INT_MAX /\
   66 * getDataSize (repeat x41 5000)
   <= 100 * occurrences x41 (repeat x41 5000)) /\
  suggestBrightness (repeat x41 5000) = Some 66.
Proof.
  assert (H1 : 100 <= getDataSize (repeat x41 5000) <= Int.INT_MAX)
    by (vm_compute; split; discriminate).
  assert (H2 : 66 * getDataSize (repeat x41 5000)
               <= 100 * occurrences x41 (repeat x41 5000))
    by (vm_compute; discriminate).
  split; [split; assumption|].
  exact (suggestBrightness_concentrated (repeat x41 5000) x41 H1 H2).
Defined.

(** C1 as stated fails below 100 bytes: a one-byte buffer consists of a
    single value, and the suggestion is 64. *)
Lemma suggestBrightness_concentrated_short :
  66 * getDataSize [x41] <= 100 * occurrences x41 [x41] /\
  suggestBrightness [x41] = Some 64 /\
  suggestBrightness [x41] <> Some 66.
Proof.
  split; [vm_compute; discriminate|].
  split; [reflexivity|]. vm_compute. discriminate.
Qed.

(** C2: for every buffer of fewer than 100 bytes [suggestBrightness]
    returns 64, the midpoint [(25 + 103) / 2] of the slider range, whatever
    the bytes are. *)
Theorem suggestBrightness_small (data : list byte) :
  getDataSize data < 100 ->
  suggestBrightness data = Some 64 /\
  64 = (k_minimum_brightness + k_maximum_brightness) / 2.
Proof.
  intros H. split; [apply suggestBrightness_below_100; exact H|reflexivity].
Qed.

Lemma suggestBrightness_small_witness :
  getDataSize (repeat xff 99) < 100 /\
  suggestBrightness (repeat xff 99) = Some 64 /\
  64 = (k_minimum_brightness + k_maximum_brightness) / 2.
Proof.
  assert (H : getDataSize (repeat xff 99) < 100) by (vm_compute; reflexivity).
  split; [exact H|].
  exact (suggestBrightness_small (repeat xff 99) H).
Defined.

(** C3: for a buffer of at least 100 bytes the walk adds up the buckets of
    the sorted histogram from the largest downward; it returns the offset
    and the sum of that many largest buckets, stops as soon as the sum has
    reached 0.66 * size or the buckets are used up, and not before; the
    suggestion is computed from that offset.  (The threshold is always
    reached within 255 buckets, so the bucket bound never decides.) *)
Theorem walk_stops_at_threshold (data : list byte) :
  100 <= getDataSize data <= Int.INT_MAX ->
  exists offset sum,
    count_loop data (replicate 256 0) 0 (length data) = Some (histogram data) /\
    walk 255 (sort_counts (histogram data)) (getDataSize data) 0 0
    = Some (offset, sum) /\
    0 <= offset <= 256 /\
    sum = top_sum (sorted_histogram data) offset /\
    (reached (getDataSize data) sum \/ offset = 256) /\
    (forall j, 0 <= j < offset ->
       ~ (reached (getDataSize data) (top_sum (sorted_histogram data) j)
          \/ j = 256)) /\
    suggestBrightness data
    = Some (Z.max k_brightness_heuristic_min
                  (k_brightness_heuristic_max - 2 * offset / 5)).
Proof.
  intros Hsize.
  destruct (suggestBrightness_from_100 data Hsize)
    as (k & E & Hk & Hr & Hp & Hs).
  exists k, (top_sum (sorted_histogram data) k).
  split; [apply count_loop_histogram; unfold getDataSize in Hsize; lia|].
  split; [exact E|]. split; [lia|]. split; [reflexivity|].
  split; [left; exact Hr|]. split; [|exact Hs].
  intros j Hj [Hreach|Hj256]; [exact (Hp j Hj Hreach)|lia].
Qed.

Lemma walk_stops_at_threshold_witness :
  100 <= getDataSize (repeat x41 66 ++ repeat x00 34) <= Int.INT_MAX /\
  exists offset sum,
    count_loop (repeat x41 66 ++ repeat x00 34) (replicate 256 0) 0
               (length (repeat x41 66 ++ repeat x00 34))
    = Some (histogram (repeat x41 66 ++ repeat x00 34)) /\
    walk 255 (sort_counts (histogram (repeat x41 66 ++ repeat x00 34)))
         (getDataSize (repeat x41 66 ++ repeat x00 34)) 0 0
    = Some (offset, sum) /\
    0 <= offset <= 256 /\
    sum = top_sum (sorted_histogram (repeat x41 66 ++ repeat x00 34)) offset /\
    (reached (getDataSize (repeat x41 66 ++ repeat x00 34)) sum
     \/ offset = 256) /\
    (forall j, 0 <= j < offset ->
       ~ (reached (getDataSize (repeat x41 66 ++ repeat x00 34))
                  (top_sum (sorted_histogram (repeat x41 66 ++ repeat x00 34)) j)
          \/ j = 256)) /\
    suggestBrightness (repeat x41 66 ++ repeat x00 34)
    = Some (Z.max k_brightness_heuristic_min
                  (k_brightness_heuristic_max - 2 * offset / 5)).
Proof.
  assert (H : 100 <= getDataSize (repeat x41 66 ++ repeat x00 34)
              <= Int.INT_MAX) by (vm_compute; split; discriminate).
  split; [exact H|].
  exact (walk_stops_at_threshold (repeat x41 66 ++ repeat x00 34) H).
Defined.

(** * The morph state machine *)

(** ** One step of a blend scalar *)

Lemma step_value : k_step = Fin step_units.
Proof. vm_compute. reflexivity. Qed.

Lemma f_one_value : f_one = Fin U.
Proof.
  unfold f_one. rewrite of_int32_exact by (simpl; lia).
  rewrite Z.mul_1_l. reflexivity.
Qed.

Lemma f_zero_value : f_zero = Fin 0.
Proof. unfold f_zero. rewrite of_int32_exact by (simpl; lia). reflexivity. Qed.

Lemma step_units_bounds : 0 < step_units < U.
Proof.
  assert (HP : 0 < 2 ^ 1015) by (apply Z.pow_pos_nonneg; lia).
  rewrite (U_eq 1015) by lia. unfold step_units. lia.
Qed.

Lemma U_double : 2 ^ 1075 = 2 * U.
Proof.
  unfold U, unit_exp. rewrite <- (Z.pow_succ_r 2 1074) by lia. reflexivity.
Qed.

Lemma stepped_spec (n : Z) :
  - 2 ^ 1075 <= n <= 2 ^ 1075 ->
  convert binary32 (round binary64 n 1) = Fin (stepped n).
Proof.
  intros Hn.
  destruct (round_int_spec binary64 n 1075 good_binary64) as [-> Hb];
    [simpl; unfold unit_exp; lia|exact Hn|].
  unfold convert, stepped.
  apply (round_int_spec binary32 _ 1075 good_binary32);
    [simpl; unfold unit_exp; lia|exact Hb].
Qed.

Lemma stepped_mono (n n' : Z) : n <= n' -> stepped n <= stepped n'.
Proof.
  intros H. unfold stepped.
  apply round_int_mono; [apply good_binary32|].
  apply round_int_mono; [apply good_binary64|exact H].
Qed.

Lemma stepped_sign (n : Z) :
  (0 <= n -> 0 <= stepped n) /\ (n <= 0 -> stepped n <= 0).
Proof.
  unfold stepped.
  destruct (round_int_sign binary64 n good_binary64) as [H1 H2].
  destruct (round_int_sign binary32 (round_int binary64 n) good_binary32)
    as [H3 H4].
  split; intros H; auto.
Qed.

Lemma stepped_le_one (n : Z) : n <= U -> stepped n <= U.
Proof.
  intros H. unfold stepped.
  assert (E64 : round_int binary64 U = U)
    by (apply (round_int_pow2 binary64 1074 good_binary64); simpl; lia).
  assert (E32 : round_int binary32 U = U)
    by (apply (round_int_pow2 binary32 1074 good_binary32); simpl; lia).
  pose proof (round_int_mono binary64 n U good_binary64 H) as H64.
  rewrite E64 in H64.
  pose proof (round_int_mono binary32 _ U good_binary32 H64) as H32.
  rewrite E32 in H32. exact H32.
Qed.

Lemma add_step_fin (k : Z) :
  - U <= k <= U -> add_step (Fin k) = Fin (stepped (k + step_units)).
Proof.
  intros Hk. pose proof step_units_bounds. pose proof U_double.
  unfold add_step. rewrite step_value. unfold add.
  apply stepped_spec. lia.
Qed.

Lemma sub_step_fin (k : Z) :
  - U <= k <= U -> sub_step (Fin k) = Fin (stepped (k - step_units)).
Proof.
  intros Hk. pose proof step_units_bounds. pose proof U_double.
  unfold sub_step, sub. rewrite step_value. unfold opp, add.
  apply stepped_spec. lia.
Qed.

Lemma clamp_hi_fin (y : Z) : clamp_hi (Fin y) = Fin (Z.min U y).
Proof.
  unfold clamp_hi, gtb. rewrite f_one_value. unfold ltb.
  destruct (Z.ltb_spec U y); f_equal; lia.
Qed.

Lemma clamp_lo_fin (y : Z) : clamp_lo (Fin y) = Fin (Z.max 0 y).
Proof.
  unfold clamp_lo. rewrite f_zero_value. unfold ltb.
  destruct (Z.ltb_spec y 0); f_equal; lia.
Qed.

Lemma in01_fin (k : Z) : 0 <= k <= U -> in01 (Fin k).
Proof. intros H. exists k. split; [reflexivity|exact H]. Qed.

Lemma in01_one : in01 f_one.
Proof. rewrite f_one_value. apply in01_fin. pose proof U_pos. lia. Qed.

Lemma in01_zero : in01 f_zero.
Proof. rewrite f_zero_value. apply in01_fin. pose proof U_pos. lia. Qed.

(** A stepped and clamped blend is back in [[0, 1]]. *)
Lemma blend_step_in01 (x : float) (up : bool) :
  in01 x ->
  in01 (clamp_lo (clamp_hi (if up then add_step x else sub_step x))).
Proof.
  intros (k & -> & Hk). pose proof U_pos.
  destruct up.
  - rewrite add_step_fin, clamp_hi_fin, clamp_lo_fin by lia.
    apply in01_fin. lia.
  - rewrite sub_step_fin, clamp_hi_fin, clamp_lo_fin by lia.
    apply in01_fin. lia.
Qed.

(** ** The position blend *)

Lemma pos_up_range (k : Z) : 0 <= k <= U -> 0 <= pos_up k <= U.
Proof.
  intros Hk. unfold pos_up. pose proof step_units_bounds.
  destruct (Z.ltb_spec k U); [|lia].
  destruct (stepped_sign (k + step_units)) as [Hs _]. lia.
Qed.

Lemma pos_up_mono (k k' : Z) :
  0 <= k <= k' -> k' <= U -> pos_up k <= pos_up k'.
Proof.
  intros Hk Hk'. unfold pos_up.
  destruct (Z.ltb_spec k U); destruct (Z.ltb_spec k' U); try lia.
  pose proof (stepped_mono (k + step_units) (k' + step_units)). lia.
Qed.

Lemma pos_down_range (k : Z) : 0 <= k <= U -> 0 <= pos_down k <= U.
Proof.
  intros Hk. unfold pos_down. pose proof step_units_bounds.
  destruct (Z.eqb_spec k 0); [lia|].
  pose proof (stepped_le_one (k - step_units)). lia.
Qed.

Lemma pos_down_mono (k k' : Z) :
  0 <= k <= k' -> k' <= U -> pos_down k <= pos_down k'.
Proof.
  intros Hk Hk'. unfold pos_down.
  destruct (Z.eqb_spec k 0); destruct (Z.eqb_spec k' 0); try lia.
  pose proof (stepped_mono (k - step_units) (k' - step_units)). lia.
Qed.

(** Iterating a monotone map of [[0, 1]] keeps the order of the starts. *)
Lemma iter_range_mono (f : Z -> Z) :
  (forall k, 0 <= k <= U -> 0 <= f k <= U) ->
  (forall k k', 0 <= k <= k' -> k' <= U -> f k <= f k') ->
  forall n k k', 0 <= k <= k' -> k' <= U ->
    0 <= Nat.iter n f k <= Nat.iter n f k' /\ Nat.iter n f k' <= U.
Proof.
  intros Hr Hm. induction n as [|n IH]; intros k k' Hk Hk'; simpl.
  - lia.
  - destruct (IH k k' Hk Hk') as [H1 H2].
    pose proof (Hr (Nat.iter n f k) ltac:(lia)).
    pose proof (Hr (Nat.iter n f k') ltac:(lia)).
    pose proof (Hm _ _ H1 H2). lia.
Qed.


Lemma stepped_coarse_eq (n : Z) :
  stepped (n * 2 ^ 925) = stepped_coarse n * 2 ^ 925.
Proof.
  unfold stepped, stepped_coarse.
  rewrite (round_int_coarse binary64) by (auto using good_binary64; lia).
  rewrite (round_int_coarse binary32) by (auto using good_binary32; lia).
  reflexivity.
Qed.

Lemma U_coarse : U = 2 ^ 149 * 2 ^ 925.
Proof. apply (U_eq 925). lia. Qed.

Lemma step_units_coarse : step_units = 5764607523034235 * 2 ^ 90 * 2 ^ 925.
Proof.
  unfold step_units. rewrite <- Z.mul_assoc, <- Z.pow_add_r by lia.
  reflexivity.
Qed.

Lemma pos_up_coarse_eq (k : Z) : pos_up (k * 2 ^ 925) = pos_up_coarse k * 2 ^ 925.
Proof.
  assert (HP : 0 < 2 ^ 925) by (apply Z.pow_pos_nonneg; lia).
  unfold pos_up, pos_up_coarse. rewrite U_coarse, step_units_coarse.
  rewrite <- Z.mul_add_distr_r, stepped_coarse_eq.
  generalize (stepped_coarse (k + 5764607523034235 * 2 ^ 90)).
  generalize dependent (2 ^ 925). generalize (2 ^ 149).
  intros Q P HP S.
  destruct (Z.ltb_spec (k * P) (Q * P)); destruct (Z.ltb_spec k Q); nia.
Qed.

Lemma pos_down_coarse_eq (k : Z) :
  pos_down (k * 2 ^ 925) = pos_down_coarse k * 2 ^ 925.
Proof.
  assert (HP : 0 < 2 ^ 925) by (apply Z.pow_pos_nonneg; lia).
  unfold pos_down, pos_down_coarse. rewrite step_units_coarse.
  rewrite <- Z.mul_sub_distr_r, stepped_coarse_eq.
  generalize (stepped_coarse (k - 5764607523034235 * 2 ^ 90)).
  generalize dependent (2 ^ 925). intros P HP S.
  destruct (Z.eqb_spec (k * P) 0); destruct (Z.eqb_spec k 0); nia.
Qed.

Lemma iter_pos_up_coarse (n : nat) (k : Z) :
  Nat.iter n pos_up (k * 2 ^ 925) = Nat.iter n pos_up_coarse k * 2 ^ 925.
Proof.
  induction n as [|n IH]; [reflexivity|].
  rewrite !Nat.iter_succ, IH. apply pos_up_coarse_eq.
Qed.

Lemma iter_pos_down_coarse (n : nat) (k : Z) :
  Nat.iter n pos_down (k * 2 ^ 925) = Nat.iter n pos_down_coarse k * 2 ^ 925.
Proof.
  induction n as [|n IH]; [reflexivity|].
  rewrite !Nat.iter_succ, IH. apply pos_down_coarse_eq.
Qed.

(** From 0 the blend is at 0.99999934 after 100 ticks and at 1 after 101. *)
Lemma pos_up_coarse_100 :
  Nat.iter 100 pos_up_coarse 0 = 16777205 * 2 ^ 125 /\
  pos_up_coarse (16777205 * 2 ^ 125) = 2 ^ 149.
Proof. split; vm_compute; reflexivity. Qed.

Lemma pos_up_100 : Nat.iter 100 pos_up 0 = 16777205 * 2 ^ 1050.
Proof.
  change 0 with (0 * 2 ^ 925) at 1.
  rewrite iter_pos_up_coarse, (proj1 pos_up_coarse_100).
  rewrite <- Z.mul_assoc, <- Z.pow_add_r by lia. reflexivity.
Qed.

Lemma pos_up_101 : Nat.iter 101 pos_up 0 = U.
Proof.
  rewrite Nat.iter_succ.
  change 0 with (0 * 2 ^ 925) at 1.
  rewrite iter_pos_up_coarse, (proj1 pos_up_coarse_100).
  rewrite pos_up_coarse_eq, (proj2 pos_up_coarse_100).
  symmetry. apply U_coarse.
Qed.

(** From 1 the blend is at 0.00000066 after 100 ticks and at 0 after 101. *)
Lemma pos_down_coarse_100 :
  Nat.iter 100 pos_down_coarse (2 ^ 149) = 2898985 * 2 ^ 107 /\
  pos_down_coarse (2898985 * 2 ^ 107) = 0.
Proof. split; vm_compute; reflexivity. Qed.

Lemma pos_down_100 : Nat.iter 100 pos_down U = 2898985 * 2 ^ 1032.
Proof.
  rewrite U_coarse.
  rewrite iter_pos_down_coarse, (proj1 pos_down_coarse_100).
  rewrite <- Z.mul_assoc, <- Z.pow_add_r by lia. reflexivity.
Qed.

Lemma pos_down_101 : Nat.iter 101 pos_down U = 0.
Proof.
  rewrite Nat.iter_succ. rewrite U_coarse at 1.
  rewrite iter_pos_down_coarse, (proj1 pos_down_coarse_100).
  rewrite pos_down_coarse_eq, (proj2 pos_down_coarse_100).
  reflexivity.
Qed.

(** ** Timer ticks *)

Lemma timerEvent_mode (w : Morph) : mode_ (timerEvent w) = mode_ w.
Proof. reflexivity. Qed.

Lemma timerEvent_c_pos_up (w : Morph) (k : Z) :
  mode_ w = LAYERED_DIGRAM -> c_pos w = Fin k -> 0 <= k <= U ->
  c_pos (timerEvent w) = Fin (pos_up k).
Proof.
  intros Hm Hp Hk. unfold timerEvent. cbn [c_pos].
  rewrite Hm, Hp. cbn [mode_eqb negb andb].
  unfold pos_up. rewrite f_one_value at 1. unfold ltb.
  destruct (Z.ltb_spec k U).
  - rewrite add_step_fin, clamp_hi_fin by lia. reflexivity.
  - reflexivity.
Qed.

Lemma timerEvent_c_pos_down (w : Morph) (k : Z) :
  mode_ w = TRIGRAM -> c_pos w = Fin k -> 0 <= k <= U ->
  c_pos (timerEvent w) = Fin (pos_down k).
Proof.
  intros Hm Hp Hk. unfold timerEvent. cbn [c_pos].
  rewrite Hm, Hp. cbn [mode_eqb negb andb nonzero].
  unfold pos_down.
  destruct (Z.eqb_spec k 0); cbn [negb].
  - subst k. reflexivity.
  - rewrite sub_step_fin, clamp_lo_fin by lia. reflexivity.
Qed.

Lemma timerEvent_in01 (w : Morph) : blends_in01 w -> blends_in01 (timerEvent w).
Proof.
  intros (Hc & Hs & k & Hp & Hk). split; [|split].
  - apply (blend_step_in01 _ (shape_eqb (shape_ w) CYLINDER)) in Hc.
    unfold timerEvent. cbn [c_cyl].
    destruct (shape_eqb (shape_ w) CYLINDER); exact Hc.
  - apply (blend_step_in01 _ (shape_eqb (shape_ w) SPHERE)) in Hs.
    unfold timerEvent. cbn [c_sph].
    destruct (shape_eqb (shape_ w) SPHERE); exact Hs.
  - destruct (mode_ w) eqn:Hm.
    + rewrite (timerEvent_c_pos_down w k Hm Hp Hk).
      apply in01_fin, pos_down_range, Hk.
    + rewrite (timerEvent_c_pos_up w k Hm Hp Hk).
      apply in01_fin, pos_up_range, Hk.
Qed.

Lemma step_in01 (w : Morph) (a : Action) : blends_in01 w -> blends_in01 (step w a).
Proof.
  intros H. destruct a as [|shape|mode animate|]; cbn [step].
  - apply timerEvent_in01, H.
  - exact H.
  - destruct H as (Hc & Hs & Hp). split; [exact Hc|]. split; [exact Hs|].
    unfold setMode. cbn [c_pos].
    destruct (mode_eqb mode LAYERED_DIGRAM && negb animate); [apply in01_one|].
    destruct (mode_eqb mode TRIGRAM && negb animate); [apply in01_zero|exact Hp].
  - exact H.
Qed.

(** C4: from any blend state in [[0,1]^3], whatever sequence of timer ticks
    and of shape, mode and play/pause settings follows, the three blend
    scalars are still in [[0,1]]. *)
Theorem blends_stay_in01 (actions : list Action) (w : Morph) :
  blends_in01 w -> blends_in01 (run actions w).
Proof.
  unfold run. revert w.
  induction actions as [|a actions IH]; intros w H; simpl.
  - exact H.
  - apply IH, step_in01, H.
Qed.

Lemma blends_stay_in01_witness :
  blends_in01 initial_morph /\
  blends_in01
    (run [SetShape CYLINDER; Tick; SetMode LAYERED_DIGRAM true; Tick;
          SetShape SPHERE; SetMode TRIGRAM false; Tick; PlayPause; Tick]
         initial_morph).
Proof.
  assert (H : blends_in01 initial_morph).
  { assert (Hz : in01 f_zero).
    { exists 0. split; [vm_compute; reflexivity|].
      split; [lia|vm_compute; discriminate]. }
    split; [exact Hz|]. split; exact Hz. }
  split; [exact H|].
  exact (blends_stay_in01 _ initial_morph H).
Defined.

Lemma ticks_mode (n : nat) (w : Morph) : mode_ (ticks n w) = mode_ w.
Proof.
  unfold ticks. induction n as [|n IH]; [reflexivity|].
  rewrite Nat.iter_succ, timerEvent_mode. exact IH.
Qed.

Lemma ticks_c_pos_up (n : nat) (w : Morph) (k : Z) :
  mode_ w = LAYERED_DIGRAM -> c_pos w = Fin k -> 0 <= k <= U ->
  c_pos (ticks n w) = Fin (Nat.iter n pos_up k).
Proof.
  intros Hm Hp Hk. induction n as [|n IH]; [exact Hp|].
  unfold ticks in *. rewrite !Nat.iter_succ.
  apply timerEvent_c_pos_up; [|exact IH|].
  - fold (ticks n w). rewrite ticks_mode. exact Hm.
  - destruct (iter_range_mono pos_up pos_up_range pos_up_mono n k k); lia.
Qed.

Lemma ticks_c_pos_down (n : nat) (w : Morph) (k : Z) :
  mode_ w = TRIGRAM -> c_pos w = Fin k -> 0 <= k <= U ->
  c_pos (ticks n w) = Fin (Nat.iter n pos_down k).
Proof.
  intros Hm Hp Hk. induction n as [|n IH]; [exact Hp|].
  unfold ticks in *. rewrite !Nat.iter_succ.
  apply timerEvent_c_pos_down; [|exact IH|].
  - fold (ticks n w). rewrite ticks_mode. exact Hm.
  - destruct (iter_range_mono pos_down pos_down_range pos_down_mono n k k); lia.
Qed.

(** Once at its target the position blend idles. *)
Lemma pos_up_idle (n : nat) : Nat.iter n pos_up U = U.
Proof.
  induction n as [|n IH]; [reflexivity|].
  rewrite Nat.iter_succ, IH. unfold pos_up. rewrite Z.ltb_irrefl. reflexivity.
Qed.

Lemma pos_down_idle (n : nat) : Nat.iter n pos_down 0 = 0.
Proof.
  induction n as [|n IH]; [reflexivity|].
  rewrite Nat.iter_succ, IH. reflexivity.
Qed.

Lemma pos_up_reaches (n : nat) (k : Z) :
  (101 <= n)%nat -> 0 <= k <= U -> Nat.iter n pos_up k = U.
Proof.
  intros Hn Hk.
  replace n with ((n - 101) + 101)%nat by lia.
  rewrite Nat.iter_add.
  assert (E : Nat.iter 101 pos_up k = U).
  { destruct (iter_range_mono pos_up pos_up_range pos_up_mono 101 0 k)
      as [H1 H2]; [lia|lia|].
    rewrite pos_up_101 in H1. lia. }
  rewrite E. apply pos_up_idle.
Qed.

Lemma pos_down_reaches (n : nat) (k : Z) :
  (101 <= n)%nat -> 0 <= k <= U -> Nat.iter n pos_down k = 0.
Proof.
  intros Hn Hk. pose proof U_pos.
  replace n with ((n - 101) + 101)%nat by lia.
  rewrite Nat.iter_add.
  assert (E : Nat.iter 101 pos_down k = 0).
  { destruct (iter_range_mono pos_down pos_down_range pos_down_mono 101 k U)
      as [H1 H2]; [lia|lia|].
    rewrite pos_down_101 in H1. lia. }
  rewrite E. apply pos_down_idle.
Qed.

(** C5, as amended: from any position blend in [[0,1]], with the mode held
    constant, the blend is exactly at its target (1 for [LAYERED_DIGRAM], 0
    otherwise) after 101 timer ticks, and idles there from then on. *)
Theorem posBlend_reaches_target (w : Morph) (n : nat) :
  in01 (c_pos w) -> (101 <= n)%nat ->
  c_pos (ticks n w) = pos_target (mode_ w).
Proof.
  intros (k & Hp & Hk) Hn.
  destruct (mode_ w) eqn:Hm; cbn [pos_target].
  - rewrite (ticks_c_pos_down n w k Hm Hp Hk), f_zero_value.
    f_equal. apply pos_down_reaches; assumption.
  - rewrite (ticks_c_pos_up n w k Hm Hp Hk), f_one_value.
    f_equal. apply pos_up_reaches; assumption.
Qed.

Lemma posBlend_reaches_target_witness :
  (in01 (c_pos (setMode LAYERED_DIGRAM true initial_morph)) /\
   (101 <= 101)%nat) /\
  c_pos (ticks 101 (setMode LAYERED_DIGRAM true initial_morph))
  = pos_target (mode_ (setMode LAYERED_DIGRAM true initial_morph)).
Proof.
  assert (H : in01 (c_pos (setMode LAYERED_DIGRAM true initial_morph))).
  { exists 0. split; [vm_compute; reflexivity|].
    split; [lia|vm_compute; discriminate]. }
  split; [split; [exact H|lia]|].
  exact (posBlend_reaches_target
           (setMode LAYERED_DIGRAM true initial_morph) 101 H (le_n 101)).
Defined.

(** C5 as stated fails: 100 ticks are not enough.  From 0 in mode
    [LAYERED_DIGRAM] the blend is not at 1 after any of the first 100 ticks
    (it is at 0.99999934 after the 100th), and from 1 in mode [TRIGRAM] it
    is not at 0 after the 100th. *)
Lemma posBlend_not_within_100_ticks :
  in01 (c_pos (setMode LAYERED_DIGRAM true initial_morph)) /\
  mode_ (setMode LAYERED_DIGRAM true initial_morph) = LAYERED_DIGRAM /\
  (forall n, (n <= 100)%nat ->
     c_pos (ticks n (setMode LAYERED_DIGRAM true initial_morph)) <> f_one) /\
  c_pos (ticks 100 (setMode LAYERED_DIGRAM true initial_morph))
  = Fin (16777205 * 2 ^ 1050) /\
  c_pos (ticks 100 (setMode TRIGRAM true
                      (setMode LAYERED_DIGRAM false initial_morph)))
  <> f_zero.
Proof.
  pose proof U_pos as HU.
  assert (HU24 : U = 16777216 * 2 ^ 1050) by (apply (U_eq 1050); lia).
  assert (HP : 0 < 2 ^ 1050) by (apply Z.pow_pos_nonneg; lia).
  assert (Hz : c_pos (setMode LAYERED_DIGRAM true initial_morph) = Fin 0).
  { unfold setMode, initial_morph. cbn [c_pos mode_eqb andb negb].
    apply f_zero_value. }
  assert (Hup : forall n,
    c_pos (ticks n (setMode LAYERED_DIGRAM true initial_morph))
    = Fin (Nat.iter n pos_up 0)).
  { intros n. apply ticks_c_pos_up; [reflexivity|exact Hz|lia]. }
  split; [rewrite Hz; apply in01_fin; lia|].
  split; [reflexivity|]. split; [|split].
  - intros n Hn Hone. rewrite Hup, f_one_value in Hone.
    injection Hone as Hone.
    assert (E : Nat.iter 100 pos_up 0 = U).
    { replace 100%nat with ((100 - n) + n)%nat by lia.
      rewrite Nat.iter_add, Hone. apply pos_up_idle. }
    rewrite pos_up_100 in E. lia.
  - rewrite Hup, pos_up_100. reflexivity.
  - rewrite (ticks_c_pos_down 100 _ U); [|reflexivity| |lia].
    + rewrite pos_down_100, f_zero_value. intros E. injection E as E.
      assert (0 < 2 ^ 1032) by (apply Z.pow_pos_nonneg; lia). lia.
    + unfold setMode, initial_morph. cbn [c_pos mode_eqb andb negb mode_].
      apply f_one_value.
Qed.

(** C7, as amended: [setMode] without animation puts the position blend at
    its target at once, with animation it leaves the blend to the timer;
    [setShape] has no such flag and never touches the cylinder and sphere
    blends, it only records the shape the timer then eases toward. *)
Theorem setMode_snaps_setShape_eases
  (w : Morph) (mode : EVisualisationMode) (shape : EVisualisationShape) :
  c_pos (setMode mode false w) = pos_target mode /\
  mode_ (setMode mode false w) = mode /\
  c_pos (setMode mode true w) = c_pos w /\
  c_cyl (setShape shape w) = c_cyl w /\
  c_sph (setShape shape w) = c_sph w /\
  shape_ (setShape shape w) = shape.
Proof.
  destruct mode; repeat split; reflexivity.
Qed.

(** C7 as stated fails for [setShape]: on the freshly constructed widget,
    choosing the cylinder (the sphere) leaves the cylinder (sphere) blend
    at 0, not at its target 1. *)
Lemma setShape_does_not_snap :
  c_cyl (setShape CYLINDER initial_morph) = f_zero /\
  c_cyl (setShape CYLINDER initial_morph) <> f_one /\
  c_sph (setShape SPHERE initial_morph) <> f_one.
Proof.
  pose proof U_pos as HU.
  assert (Hne : f_zero <> f_one).
  { rewrite f_zero_value, f_one_value. intros E. injection E as E. lia. }
  split; [reflexivity|]. split; exact Hne.
Qed.

(** * The intensity *)

Lemma mul32_exact (a b : Z) :
  Z.abs (a * b) < 2 ^ 24 ->
  mul binary32 (Fin (a * U)) (Fin (b * U)) = Fin (a * b * U).
Proof.
  intros Hab. unfold mul. pose proof U_pos.
  replace (a * U * (b * U)) with (a * b * U * U) by lia.
  rewrite <- (Z.mul_1_l U) at 3.
  rewrite round_scale by lia.
  apply of_int32_exact. exact Hab.
Qed.

Lemma cube_exact (value : Z) :
  0 <= value <= 255 ->
  mul binary32 (mul binary32 (of_int binary32 value) (of_int binary32 value))
      (of_int binary32 value)
  = Fin (value ^ 3 * U).
Proof.
  intros Hv.
  rewrite of_int32_exact by lia.
  rewrite mul32_exact by nia.
  rewrite mul32_exact by nia.
  f_equal. lia.
Qed.

(** C6: [setBrightness] stores the value and makes the intensity
    [value^3 / dataSize] in [float]: for a value up to 255 (the slider ends
    at 103) the cube is exact and the intensity is that cube divided by the
    data size as a [float]; for a data size that [float] holds exactly it
    is the binary32 number nearest to the quotient.  For value 64 and size
    1000 that is the [float] 262.144. *)
Theorem setBrightness_intensity (value dataSize : Z) (w : Brightness) :
  0 <= value <= 255 -> 1 <= dataSize ->
  brightness_ (setBrightness value dataSize w) = value /\
  c_brightness (setBrightness value dataSize w)
  = div binary32 (Fin (value ^ 3 * U)) (brightness_divisor dataSize) /\
  (dataSize < 2 ^ 24 ->
   c_brightness (setBrightness value dataSize w)
   = of_ratio binary32 (value ^ 3) dataSize) /\
  c_brightness (setBrightness 64 1000 w) = of_ratio binary32 262144 1000.
Proof.
  assert (Hcube : forall v d, 0 <= v <= 255 ->
    c_brightness (setBrightness v d w)
    = div binary32 (Fin (v ^ 3 * U)) (brightness_divisor d)).
  { intros v d Hv. unfold setBrightness. cbn [c_brightness].
    rewrite cube_exact by exact Hv. reflexivity. }
  assert (Hgen : forall v d, 0 <= v <= 255 -> 1 <= d < 2 ^ 24 ->
    c_brightness (setBrightness v d w) = of_ratio binary32 (v ^ 3) d).
  { intros v d Hv Hd. pose proof U_pos.
    rewrite Hcube by exact Hv.
    unfold brightness_divisor. rewrite of_int32_exact by lia.
    unfold div, of_ratio.
    destruct (Z.eqb_spec (d * U) 0) as [E|_]; [nia|].
    rewrite Z.sgn_pos, Z.abs_eq, Z.mul_1_l by nia.
    apply round_scale; lia. }
  intros Hv Hd. split; [reflexivity|]. split; [apply Hcube; exact Hv|].
  split.
  - intros Hd'. apply Hgen; [exact Hv|lia].
  - apply (Hgen 64 1000); lia.
Qed.

Lemma setBrightness_intensity_witness :
  (0 <= 64 <= 255 /\ 1 <= 1000) /\
  brightness_ (setBrightness 64 1000 initial_brightness) = 64 /\
  c_brightness (setBrightness 64 1000 initial_brightness)
  = div binary32 (Fin (64 ^ 3 * U)) (brightness_divisor 1000) /\
  (1000 < 2 ^ 24 ->
   c_brightness (setBrightness 64 1000 initial_brightness)
   = of_ratio binary32 (64 ^ 3) 1000) /\
  c_brightness (setBrightness 64 1000 initial_brightness)
  = of_ratio binary32 262144 1000.
Proof.
  assert (H1 : 0 <= 64 <= 255) by lia.
  assert (H2 : 1 <= 1000) by lia.
  split; [split; assumption|].
  exact (setBrightness_intensity 64 1000 initial_brightness H1 H2).
Defined.

(** The [float] 262.144 is [8589935 * 2^-15], within half a unit in the
    last place of the decimal. *)
Example float_262_144 :
  of_ratio binary32 262144 1000 = Fin (8589935 * 2 ^ 1059) /\
  2 * Z.abs (8589935 * 1000 - 262144 * 2 ^ 15) <= 1000.
Proof. split; [vm_compute; reflexivity|vm_compute; discriminate]. Qed.

(** ** The divisor *)

Lemma divisor_positive (d : Z) :
  1 <= d <= Int.INT_MAX ->
  exists kd, brightness_divisor d = Fin kd /\ U <= kd <= 2 ^ 31 * U.
Proof.
  intros Hd. unfold Int.INT_MAX in Hd. pose proof U_pos.
  assert (H31 : 2 ^ (31 + 1074) = 2 ^ 31 * U) by (apply Z.pow_add_r; lia).
  unfold brightness_divisor, of_int, of_ratio.
  destruct (round_int_spec binary32 (d * U) (31 + 1074) good_binary32)
    as [E [_ Hhi]]; [simpl; unfold unit_exp; lia|rewrite H31; nia|].
  exists (round_int binary32 (d * U)). split; [exact E|].
  split; [|rewrite <- H31; exact Hhi].
  assert (E32 : round_int binary32 U = U)
    by (apply (round_int_pow2 binary32 1074 good_binary32); simpl; lia).
  pose proof (round_int_mono binary32 U (d * U) good_binary32 ltac:(nia)) as Hm.
  rewrite E32 in Hm. exact Hm.
Qed.

Lemma intensity_finite (value kd : Z) :
  25 <= value <= 103 -> U <= kd <= 2 ^ 31 * U ->
  exists k, div binary32 (Fin (value ^ 3 * U)) (Fin kd) = Fin k /\ 0 < k.
Proof.
  intros Hv Hk. pose proof U_pos as HU.
  assert (Hc : 2 ^ 13 <= value ^ 3 < 2 ^ 21) by nia.
  unfold div.
  destruct (Z.eqb_spec kd 0) as [E|_]; [lia|].
  rewrite Z.sgn_pos, Z.abs_eq, Z.mul_1_l by lia.
  assert (H21 : 2 ^ (21 + 1074) = 2 ^ 21 * U) by (apply Z.pow_add_r; lia).
  assert (H13 : U = 2 ^ 18 * 2 ^ 1056) by (apply (U_eq 1056); lia).
  assert (HP : 0 < 2 ^ 1056) by (apply Z.pow_pos_nonneg; lia).
  destruct (round_nonneg_fin binary32 (value ^ 3 * U * U) kd (21 + 1074))
    as [E _]; [apply good_binary32|nia|lia|simpl; unfold unit_exp; lia| |].
  { rewrite H21. nia. }
  exists (round_pos binary32 (value ^ 3 * U * U) kd). split; [exact E|].
  apply Z.lt_le_trans with (2 ^ 1056); [exact HP|].
  apply round_pos_ge_pow2; [apply good_binary32|lia|simpl; lia|].
  assert (2 ^ 1056 * kd <= 2 ^ 13 * U * U); [|nia].
  rewrite H13 at 2. nia.
Qed.

Lemma suggestBrightness_total (data : list byte) :
  getDataSize data <= Int.INT_MAX ->
  exists b, suggestBrightness data = Some b /\ 38 <= b <= 66.
Proof.
  intros Hmax.
  destruct (Z_lt_le_dec (getDataSize data) 100) as [Hlt|Hge].
  - exists 64. split; [apply suggestBrightness_below_100; exact Hlt|lia].
  - destruct (suggestBrightness_from_100 data ltac:(lia))
      as (k & _ & Hk & _ & _ & E).
    eexists. split; [exact E|].
    unfold k_brightness_heuristic_min, k_brightness_heuristic_max.
    assert (0 <= 2 * k / 5) by (apply Z.div_pos; lia). lia.
Qed.

(** C8, as amended: for every non-empty buffer (of a size that fits [int])
    the numeric paths are total: the histogram and the walk stay inside the
    vector and [suggestBrightness] returns a value between 38 and 66;
    [setBrightness] divides by a non-zero [float], and for a value of the
    slider range the intensity is a positive finite number; a timer tick
    keeps the blends in [[0,1]].  (Nothing guards the division: for the
    empty buffer the divisor is zero.) *)
Theorem numeric_paths_nonempty_buffer
  (data : list byte) (value : Z) (w : Brightness) (m : Morph) :
  1 <= getDataSize data <= Int.INT_MAX ->
  k_minimum_brightness <= value <= k_maximum_brightness ->
  (exists b, suggestBrightness data = Some b /\ 38 <= b <= 66) /\
  brightness_divisor (getDataSize data) <> Fin 0 /\
  (exists k, c_brightness (setBrightness value (getDataSize data) w) = Fin k
             /\ 0 < k) /\
  (blends_in01 m -> blends_in01 (timerEvent m)).
Proof.
  unfold k_minimum_brightness, k_maximum_brightness. intros Hs Hv.
  pose proof U_pos as HU.
  destruct (divisor_positive (getDataSize data) Hs) as (kd & Ed & Hkd).
  split; [apply suggestBrightness_total; lia|].
  split; [rewrite Ed; intros E; injection E as E; lia|].
  split; [|apply timerEvent_in01].
  unfold setBrightness. cbn [c_brightness].
  rewrite cube_exact by lia. rewrite Ed.
  apply intensity_finite; [lia|exact Hkd].
Qed.

Lemma numeric_paths_nonempty_buffer_witness :
  (1 <= getDataSize [x41] <= Int.INT_MAX /\
   k_minimum_brightness <= 64 <= k_maximum_brightness) /\
  (exists b, suggestBrightness [x41] = Some b /\ 38 <= b <= 66) /\
  brightness_divisor (getDataSize [x41]) <> Fin 0 /\
  (exists k, c_brightness (setBrightness 64 (getDataSize [x41])
                                       initial_brightness) = Fin k
             /\ 0 < k) /\
  (blends_in01 initial_morph -> blends_in01 (timerEvent initial_morph)).
Proof.
  assert (H1 : 1 <= getDataSize [x41] <= Int.INT_MAX)
    by (vm_compute; split; discriminate).
  assert (H2 : k_minimum_brightness <= 64 <= k_maximum_brightness)
    by (vm_compute; split; discriminate).
  split; [split; assumption|].
  exact (numeric_paths_nonempty_buffer [x41] 64 initial_brightness
           initial_morph H1 H2).
Defined.

(** C8 as stated fails on the empty buffer: [refresh()] runs
    [setBrightness] with data size 0, the divisor is zero and the intensity
    is infinite. *)
Lemma setBrightness_divides_by_zero :
  brightness_divisor (getDataSize []) = Fin 0 /\
  refresh [] initial_brightness
  = Some {| brightness_ := 64; c_brightness := Inf false;
            use_brightness_heuristic_ := true |}.
Proof. split; vm_compute; reflexivity. Qed.

(** * The manipulator controller *)

Section ControllerFacts.

Context {Matrix MState : Type}.
Context (transform : ManipId -> MState -> Matrix).
Context (initFromMatrix : ManipId -> Matrix -> MState -> MState).
Context (handlesPause : ManipId -> bool).
Context (processEvent : ManipId -> QEvent -> MState -> MState).
Context (isCtrlButton : Z -> bool).

Lemma ptr_eqb_refl (p : option ManipId) : ptr_eqb p p = true.
Proof. destruct p as [[]|]; reflexivity. Qed.

Lemma ptr_eqb_eq (p q : option ManipId) : ptr_eqb p q = true <-> p = q.
Proof.
  split; [|intros ->; apply ptr_eqb_refl].
  destruct p as [[]|], q as [[]|]; simpl; congruence.
Qed.

(** C9: [setManipulator] called with the manipulator that is already
    active returns at once: the whole widget state is unchanged, so no
    notification is emitted, no manipulator state (transform) is touched,
    and the playing flag, the event filters and the pause button stay as
    they are. *)
Theorem setManipulator_active_is_noop (w : @Controller MState) :
  setManipulator transform initFromMatrix handlesPause
                 (current_manipulator_ w) w
  = Some w.
Proof.
  unfold setManipulator. rewrite ptr_eqb_refl. reflexivity.
Qed.

(** Switching from [cur] to another manipulator [m]. *)
Lemma setManipulator_switch (w : @Controller MState) (cur m : ManipId) :
  current_manipulator_ w = Some cur -> manip_eqb m cur = false ->
  playing w = true \/ pause_button_ w <> None ->
  exists w',
    setManipulator transform initFromMatrix handlesPause (Some m) w = Some w' /\
    current_manipulator_ w' = Some m /\
    playing w' = true /\
    effects w' = effects w ++ [ManipulatorChanged (Some m); SetFocus] /\
    manipulator_state w'
    = set_state m (initFromMatrix m (transform cur (manipulator_state w cur))
                                  (manipulator_state w m))
                (manipulator_state w).
Proof.
  intros Hcur Hne Hok. unfold setManipulator.
  rewrite Hcur. cbn [ptr_eqb]. rewrite Hne. cbn [playing].
  destruct (playing w) eqn:Hp.
  - cbn [mbind option_bind pause_button_ current_manipulator_].
    destruct (pause_button_ w) as [b|]; cbn [mbind option_bind];
      (eexists; split; [reflexivity|]);
      cbn [current_manipulator_ playing effects manipulator_state];
      repeat split; reflexivity.
  - destruct Hok as [Hok|Hok]; [discriminate|].
    unfold playPause. cbn [pause_button_].
    destruct (pause_button_ w) as [b|]; [|congruence].
    cbn [mbind option_bind pause_button_ current_manipulator_ playing negb].
    eexists; split; [reflexivity|].
    cbn [current_manipulator_ playing effects manipulator_state].
    repeat split; reflexivity.
Qed.

(** The sibling promotion: a pointer move with the left button held, while
    Spin is active, makes Trackball the active manipulator and hands it the
    event. *)
Lemma mouse_promotion_forwards_to_trackball
  (w : @Controller MState) (buttons : Z) :
  current_manipulator_ w = Some Spin -> Z.land buttons LeftButton <> 0 ->
  playing w = true \/ pause_button_ w <> None ->
  exists w',
    event transform initFromMatrix handlesPause processEvent isCtrlButton
          (MouseMove buttons) w = Some w' /\
    current_manipulator_ w' = Some Trackball /\
    effects w'
    = effects w ++ [ManipulatorChanged (Some Trackball); SetFocus;
                    ProcessEvent Trackball (MouseMove buttons);
                    BaseEvent (MouseMove buttons)].
Proof.
  intros Hcur Hb Hok.
  destruct (setManipulator_switch w Spin Trackball Hcur)
    as (w1 & E & Hc & _ & He & _); [reflexivity|exact Hok|].
  unfold event. rewrite Hcur.
  destruct (Z.eqb_spec (Z.land buttons LeftButton) 0) as [E0|_]; [contradiction|].
  cbn [negb andb ptr_eqb manip_eqb]. rewrite E. cbn [mbind option_bind].
  eexists. split; [reflexivity|].
  unfold base_event, deliver. cbn [current_manipulator_ effects].
  split; [exact Hc|]. rewrite He, <- !app_assoc. reflexivity.
Qed.

(** C10: a key press that matches the Free manipulator's modifier
    predicate, while Spin or Trackball is active, makes Free the active
    manipulator and then hands that same event to the Trackball
    manipulator, not to Free: the only [processEvent] is Trackball's, and
    Free's state is what [initFromMatrix] made of the previous transform. *)
Theorem key_promotion_forwards_to_trackball
  (w : @Controller MState) (cur : ManipId) (key : Z) :
  current_manipulator_ w = Some cur -> cur = Spin \/ cur = Trackball ->
  isCtrlButton key = true ->
  playing w = true \/ pause_button_ w <> None ->
  exists w',
    event transform initFromMatrix handlesPause processEvent isCtrlButton
          (KeyPress key) w = Some w' /\
    current_manipulator_ w' = Some Free /\
    effects w'
    = effects w ++ [ManipulatorChanged (Some Free); SetFocus;
                    ProcessEvent Trackball (KeyPress key);
                    BaseEvent (KeyPress key)] /\
    manipulator_state w' Free
    = initFromMatrix Free (transform cur (manipulator_state w cur))
                     (manipulator_state w Free) /\
    manipulator_state w' Trackball
    = processEvent Trackball (KeyPress key) (manipulator_state w Trackball).
Proof.
  intros Hcur Hsp Hkey Hok.
  destruct (setManipulator_switch w cur Free Hcur) as (w1 & E & Hc & _ & He & Hs);
    [destruct Hsp as [->| ->]; reflexivity|exact Hok|].
  unfold event. rewrite Hcur, Hkey.
  assert (Hb : ptr_eqb (Some cur) (Some Spin)
               || ptr_eqb (Some cur) (Some Trackball) = true)
    by (destruct Hsp as [->| ->]; reflexivity).
  rewrite Hb. cbn [andb]. rewrite E. cbn [mbind option_bind].
  eexists. split; [reflexivity|].
  unfold base_event, deliver.
  cbn [current_manipulator_ effects manipulator_state].
  split; [exact Hc|]. split.
  - rewrite He, <- !app_assoc. reflexivity.
  - rewrite Hs. unfold set_state. cbn [manip_eqb]. split; reflexivity.
Qed.

End ControllerFacts.

(** A controller with numbers for matrices: the constructed widget, with
    the Spin manipulator active. *)
Lemma key_promotion_forwards_to_trackball_witness :
  let transform := fun (_ : ManipId) (s : Z) => s in
  let initFromMatrix := fun (_ : ManipId) (m _ : Z) => m in
  let handlesPause := fun m => manip_eqb m Spin in
  let processEvent := fun (_ : ManipId) (_ : QEvent) (s : Z) => s + 1 in
  let isCtrlButton := fun key => key =? 16777249 in
  let w := {| current_manipulator_ := Some Spin; playing := true;
              pause_button_ := None; event_filters := [Spin];
              manipulator_state := fun _ => 7;
              effects := [ManipulatorChanged (Some Spin); SetFocus] |} in
  (current_manipulator_ w = Some Spin /\ (Spin = Spin \/ Spin = Trackball) /\
   isCtrlButton 16777249 = true /\
   (playing w = true \/ pause_button_ w <> None)) /\
  exists w',
    event transform initFromMatrix handlesPause processEvent isCtrlButton
          (KeyPress 16777249) w = Some w' /\
    current_manipulator_ w' = Some Free /\
    effects w'
    = effects w ++ [ManipulatorChanged (Some Free); SetFocus;
                    ProcessEvent Trackball (KeyPress 16777249);
                    BaseEvent (KeyPress 16777249)] /\
    manipulator_state w' Free
    = initFromMatrix Free (transform Spin (manipulator_state w Spin))
                     (manipulator_state w Free) /\
    manipulator_state w' Trackball
    = processEvent Trackball (KeyPress 16777249) (manipulator_state w Trackball).
Proof.
  intros transform initFromMatrix handlesPause processEvent isCtrlButton w.
  assert (H1 : current_manipulator_ w = Some Spin) by reflexivity.
  assert (H2 : Spin = Spin \/ Spin = Trackball) by (left; reflexivity).
  assert (H3 : isCtrlButton 16777249 = true) by reflexivity.
  assert (H4 : playing w = true \/ pause_button_ w <> None)
    by (left; reflexivity).
  split; [repeat split; assumption|].
  exact (key_promotion_forwards_to_trackball transform initFromMatrix
           handlesPause processEvent isCtrlButton w Spin 16777249
           H1 H2 H3 H4).
Defined.

(** * The arithmetic against the Standard Library's IEEE 754

    On the numbers the widget meets, the operations of [IEEE] and those of
    [SpecFloat] agree. *)

Example literals_agree :
  to_spec binary64 k_step = S754_finite false 5764607523034235 (-59) /\
  to_spec binary64 k_brightness_heuristic_threshold
  = S754_finite false 5944751508129055 (-53) /\
  to_spec binary64 k_brightness_heuristic_scaling
  = S754_finite false 5629499534213120 (-51) /\
  to_spec binary32 f_one = S754_finite false 8388608 (-23).
Proof.
  split; [vm_compute; reflexivity|]. split; [vm_compute; reflexivity|].
  split; vm_compute; reflexivity.
Qed.

Example add_step_agrees :
  map (fun k => to_spec binary32 (add_step (Fin k)))
      [0; 2 ^ 1073; 16777205 * 2 ^ 1050; 2 ^ 925]
  = map (fun k => narrow_spec (SFadd 53 1024 (to_spec binary64 (Fin k))
                                     (to_spec binary64 k_step)))
        [0; 2 ^ 1073; 16777205 * 2 ^ 1050; 2 ^ 925].
Proof. vm_compute. reflexivity. Qed.

Example sub_step_agrees :
  map (fun k => to_spec binary32 (sub_step (Fin k)))
      [2 ^ 1074; 2 ^ 1073; 2898985 * 2 ^ 1032; 2 ^ 925]
  = map (fun k => narrow_spec (SFsub 53 1024 (to_spec binary64 (Fin k))
                                     (to_spec binary64 k_step)))
        [2 ^ 1074; 2 ^ 1073; 2898985 * 2 ^ 1032; 2 ^ 925].
Proof. vm_compute. reflexivity. Qed.

Example threshold_agrees :
  map (fun size =>
         to_spec binary64
           (mul binary64 k_brightness_heuristic_threshold
                (of_int binary64 size)))
      [100; 2147483647]
  = map (fun size =>
           SFmul 53 1024 (to_spec binary64 k_brightness_heuristic_threshold)
                 (to_spec binary64 (of_int binary64 size)))
        [100; 2147483647].
Proof. vm_compute. reflexivity. Qed.

Example scaling_agrees :
  map (fun offset =>
         to_spec binary64
           (div binary64 (of_int binary64 offset)
                k_brightness_heuristic_scaling))
      [3; 169]
  = map (fun offset =>
           SFdiv 53 1024 (to_spec binary64 (of_int binary64 offset))
                 (to_spec binary64 k_brightness_heuristic_scaling))
        [3; 169].
Proof. vm_compute. reflexivity. Qed.

Example intensity_agrees :
  to_spec binary32 (c_brightness (setBrightness 64 1000 initial_brightness))
  = S754_finite false 8589935 (-15) /\
  SFdiv 24 128
    (SFmul 24 128
       (SFmul 24 128 (to_spec binary32 (of_int binary32 64))
              (to_spec binary32 (of_int binary32 64)))
       (to_spec binary32 (of_int binary32 64)))
    (to_spec binary32 (of_int binary32 1000))
  = S754_finite false 8589935 (-15) /\
  to_spec binary32 (c_brightness (setBrightness 103 4194301 initial_brightness))
  = SFdiv 24 128 (to_spec binary32 (of_int binary32 1092727))
          (to_spec binary32 (of_int binary32 4194301)).
Proof.
  split; [vm_compute; reflexivity|]. split; vm_compute; reflexivity.
Qed.

(** * More about the brightness heuristic *)

Lemma wrap_range (z : Z) : - 2 ^ 31 <= Int.wrap z <= Int.INT_MAX.
Proof.
  unfold Int.wrap, Int.INT_MAX.
  pose proof (Z.mod_pos_bound (z + 2 ^ 31) (2 ^ 32) ltac:(lia)). lia.
Qed.

Lemma wrap_le (z : Z) : 0 <= z -> Int.wrap z <= z.
Proof.
  intros Hz. unfold Int.wrap.
  pose proof (Z.mod_le (z + 2 ^ 31) (2 ^ 32) ltac:(lia) ltac:(lia)). lia.
Qed.

(** The loop over the first [n] bytes computes their histogram. *)
Lemma count_loop_prefix (data : list byte) (n : nat) :
  (n <= length data)%nat -> Z.of_nat n <= Int.INT_MAX ->
  count_loop data (replicate 256 0) 0 n = Some (histogram (take n data)).
Proof.
  intros Hn Hmax. unfold Int.INT_MAX in Hmax.
  destruct (count_loop_spec data n 0 (replicate 256 0))
    as (counts' & E & L & _ & P).
  - apply length_replicate.
  - lia.
  - intros j c Hj. apply lookup_replicate in Hj as [-> _]. lia.
  - rewrite E. f_equal. apply list_eq. intros j.
    destruct (decide (j < 256)%nat) as [Hj|Hj].
    + destruct (lookup_lt_is_Some_2 byte_values j) as [v Hv];
        [rewrite byte_values_length; exact Hj|].
      assert (Hjv : j = Byte.to_nat v).
      { unfold byte_values in Hv. rewrite list_lookup_fmap in Hv.
        rewrite lookup_seq_lt in Hv by exact Hj. simpl in Hv.
        destruct (Byte.of_nat j) as [b|] eqn:Eb.
        - simpl in Hv. injection Hv as <-.
          symmetry. apply Byte.to_of_nat. exact Eb.
        - apply Byte.of_nat_None_iff in Eb. lia. }
      subst j. rewrite histogram_lookup.
      rewrite (P v 0) by (apply lookup_replicate_2; exact Hj).
      rewrite drop_0. reflexivity.
    + rewrite !(proj2 (lookup_ge_None _ _)); [reflexivity| |].
      * rewrite histogram_length. lia.
      * rewrite L. lia.
Qed.

(** Whatever the buffer, from 100 bytes on (as [int]) the suggestion comes
    from the walk over the sorted histogram of the bytes the loop reads. *)
Lemma suggestBrightness_explicit (data : list byte) :
  100 <= Int.wrap (getDataSize data) ->
  exists k,
    0 <= k <= 255 /\
    reached (Int.wrap (getDataSize data))
      (top_sum (sorted_histogram
                  (take (Z.to_nat (Int.wrap (getDataSize data))) data)) k) /\
    (forall j, 0 <= j < k ->
       ~ reached (Int.wrap (getDataSize data))
           (top_sum (sorted_histogram
                       (take (Z.to_nat (Int.wrap (getDataSize data))) data))
                    j)) /\
    suggestBrightness data
    = Some (Z.max k_brightness_heuristic_min
                  (k_brightness_heuristic_max - 2 * k / 5)).
Proof.
  intros Hs.
  pose proof (wrap_range (getDataSize data)) as Hr.
  pose proof (wrap_le (getDataSize data) ltac:(unfold getDataSize; lia)) as Hle.
  unfold suggestBrightness.
  remember (Int.wrap (getDataSize data)) as size eqn:Esize.
  remember (Z.to_nat size) as n eqn:En.
  assert (Hn : (n <= length data)%nat) by (unfold getDataSize in *; lia).
  assert (Hlen : Z.of_nat (length (take n data)) = size).
  { rewrite length_take_le by exact Hn. lia. }
  pose proof (sorted_histogram_input (take n data) ltac:(lia)) as Hin.
  rewrite Hlen in Hin.
  destruct (walk_result _ _ Hin) as (k & E & Hk & Hreach & Hp).
  exists k. split; [exact Hk|]. split; [exact Hreach|]. split; [exact Hp|].
  destruct (Z.ltb_spec size 100); [lia|].
  rewrite count_loop_prefix by lia.
  cbn [mbind option_bind].
  unfold sorted_histogram in E. rewrite E. cbn [mbind option_bind].
  rewrite scaled_offset by exact Hk. reflexivity.
Qed.

(** The result is always there. *)
Lemma suggestBrightness_returns (data : list byte) :
  exists b, suggestBrightness data = Some b.
Proof.
  destruct (Z_lt_le_dec (Int.wrap (getDataSize data)) 100) as [Hlt|Hge].
  - exists 64. unfold suggestBrightness.
    destruct (Z.ltb_spec (Int.wrap (getDataSize data)) 100); [reflexivity|lia].
  - destruct (suggestBrightness_explicit data Hge) as (k & _ & _ & _ & E).
    eexists. exact E.
Qed.

(** X1: for every buffer whatsoever, also the empty one and one whose size
    does not fit [int], [suggestBrightness] returns a value, and that value
    lies between the heuristic's floor 38 and ceiling 66. *)
Theorem suggestBrightness_in_range (data : list byte) :
  exists b,
    suggestBrightness data = Some b /\
    k_brightness_heuristic_min <= b <= k_brightness_heuristic_max.
Proof.
  unfold k_brightness_heuristic_min, k_brightness_heuristic_max.
  destruct (Z_lt_le_dec (Int.wrap (getDataSize data)) 100) as [Hlt|Hge].
  - exists 64. split; [|lia].
    unfold suggestBrightness.
    destruct (Z.ltb_spec (Int.wrap (getDataSize data)) 100); [reflexivity|lia].
  - destruct (suggestBrightness_explicit data Hge) as (k & Hk & _ & _ & E).
    eexists. split; [exact E|].
    unfold k_brightness_heuristic_min, k_brightness_heuristic_max.
    assert (0 <= 2 * k / 5) by (apply Z.div_pos; lia). lia.
Qed.

(** ** The order of the bytes *)

Lemma occurrences_perm (v : byte) (d1 d2 : list byte) :
  d1 ≡ₚ d2 -> occurrences v d1 = occurrences v d2.
Proof.
  induction 1; rewrite ?occurrences_cons; lia.
Qed.

Lemma histogram_perm (d1 d2 : list byte) :
  d1 ≡ₚ d2 -> histogram d1 = histogram d2.
Proof.
  intros H. unfold histogram. apply list_fmap_ext.
  intros _ v _. apply occurrences_perm, H.
Qed.

(** The first offset that reaches the threshold is unique. *)
Lemma least_reached_unique (size : Z) (sc : list Z) (k k' : Z) :
  reached size (top_sum sc k) ->
  (forall j, 0 <= j < k -> ~ reached size (top_sum sc j)) ->
  reached size (top_sum sc k') ->
  (forall j, 0 <= j < k' -> ~ reached size (top_sum sc j)) ->
  0 <= k -> 0 <= k' -> k = k'.
Proof.
  intros Hr Hp Hr' Hp' H0 H0'.
  destruct (Z.lt_trichotomy k k') as [Hlt|[Heq|Hgt]]; [|exact Heq|].
  - exfalso. apply (Hp' k); [lia|exact Hr].
  - exfalso. apply (Hp k'); [lia|exact Hr'].
Qed.

(** X2: the suggestion depends on how often each byte value occurs, not on
    where: two buffers that are rearrangements of each other (of a size
    that fits [int]) get the same brightness. *)
Theorem suggestBrightness_permutation (d1 d2 : list byte) :
  getDataSize d1 <= Int.INT_MAX -> d1 ≡ₚ d2 ->
  suggestBrightness d1 = suggestBrightness d2.
Proof.
  intros Hmax Hperm.
  assert (Hlen : getDataSize d2 = getDataSize d1).
  { unfold getDataSize. f_equal. symmetry. apply Permutation_length, Hperm. }
  destruct (Z_lt_le_dec (getDataSize d1) 100) as [Hlt|Hge].
  - rewrite !suggestBrightness_below_100 by lia. reflexivity.
  - destruct (suggestBrightness_from_100 d1 ltac:(lia))
      as (k1 & _ & Hk1 & Hr1 & Hp1 & ->).
    destruct (suggestBrightness_from_100 d2 ltac:(lia))
      as (k2 & _ & Hk2 & Hr2 & Hp2 & ->).
    assert (Hsc : sorted_histogram d2 = sorted_histogram d1).
    { unfold sorted_histogram. rewrite (histogram_perm d1 d2 Hperm).
      reflexivity. }
    rewrite Hlen, Hsc in Hr2, Hp2.
    rewrite (least_reached_unique _ _ k1 k2 Hr1 Hp1 Hr2 Hp2); [reflexivity| |];
      lia.
Qed.

Lemma suggestBrightness_permutation_witness :
  (getDataSize (repeat x41 70 ++ repeat x00 50) <= Int.INT_MAX /\
   repeat x41 70 ++ repeat x00 50 ≡ₚ repeat x00 50 ++ repeat x41 70) /\
  suggestBrightness (repeat x41 70 ++ repeat x00 50)
  = suggestBrightness (repeat x00 50 ++ repeat x41 70).
Proof.
  assert (H1 : getDataSize (repeat x41 70 ++ repeat x00 50) <= Int.INT_MAX)
    by (vm_compute; discriminate).
  assert (H2 : repeat x41 70 ++ repeat x00 50
               ≡ₚ repeat x00 50 ++ repeat x41 70)
    by apply Permutation_app_comm.
  split; [split; assumption|].
  exact (suggestBrightness_permutation _ _ H1 H2).
Defined.

(** ** How many buckets the walk needs *)

Lemma top_sum_mono (sc : list Z) (j k : Z) :
  Forall (Z.le 0) sc -> j <= k -> top_sum sc j <= top_sum sc k.
Proof.
  intros Hn Hjk. unfold top_sum.
  replace (take (Z.to_nat j) (reverse sc))
    with (take (Z.to_nat j) (take (Z.to_nat k) (reverse sc)))
    by (rewrite take_take; f_equal; lia).
  apply sum_list_Z_take, Forall_take, Forall_reverse, Hn.
Qed.

Lemma sorted_histogram_nonneg (data : list byte) :
  Forall (Z.le 0) (sorted_histogram data).
Proof.
  unfold sorted_histogram, sort_counts.
  rewrite merge_sort_Permutation. unfold histogram.
  apply Forall_fmap, Forall_forall. intros v _. apply occurrences_nonneg.
Qed.

(** X3: from 100 bytes on the suggestion is the ceiling 66 exactly when the
    two most frequent byte values together make up at least 66% of the
    buffer. *)
Theorem suggestBrightness_ceiling (data : list byte) :
  100 <= getDataSize data <= Int.INT_MAX ->
  (suggestBrightness data = Some k_brightness_heuristic_max
   <-> reached (getDataSize data) (top_sum (sorted_histogram data) 2)).
Proof.
  intros Hs.
  destruct (suggestBrightness_from_100 data Hs) as (k & _ & Hk & Hr & Hp & ->).
  pose proof (sorted_histogram_nonneg data) as Hn.
  unfold k_brightness_heuristic_min, k_brightness_heuristic_max.
  split.
  - intros E. injection E as E.
    assert (Hk2 : k <= 2).
    { destruct (Z_le_gt_dec k 2) as [H|H]; [exact H|exfalso].
      assert (1 <= 2 * k / 5) by (apply Z.div_le_lower_bound; lia). lia. }
    pose proof (top_sum_mono _ k 2 Hn Hk2). unfold reached in *. lia.
  - intros H2.
    assert (Hk2 : k <= 2).
    { destruct (Z_le_gt_dec k 2) as [H|H]; [exact H|exfalso].
      apply (Hp 2); [lia|exact H2]. }
    f_equal.
    assert (2 * k / 5 = 0) by (apply Z.div_small; lia). lia.
Qed.

Lemma suggestBrightness_ceiling_witness :
  100 <= getDataSize (repeat x41 40 ++ repeat x00 40 ++ repeat xff 20)
  <= Int.INT_MAX /\
  (suggestBrightness (repeat x41 40 ++ repeat x00 40 ++ repeat xff 20)
   = Some k_brightness_heuristic_max
   <-> reached (getDataSize (repeat x41 40 ++ repeat x00 40 ++ repeat xff 20))
         (top_sum (sorted_histogram
                     (repeat x41 40 ++ repeat x00 40 ++ repeat xff 20)) 2)).
Proof.
  assert (H : 100 <= getDataSize (repeat x41 40 ++ repeat x00 40 ++ repeat xff 20)
              <= Int.INT_MAX) by (vm_compute; split; discriminate).
  split; [exact H|].
  exact (suggestBrightness_ceiling _ H).
Defined.

(** Buckets below a cut of a sorted vector weigh no more, on average, than
    those above it. *)
Lemma sum_below_above (lo hi : list Z) :
  (forall a b, a ∈ lo -> b ∈ hi -> a <= b) ->
  Z.of_nat (length hi) * sum_list_Z lo <= Z.of_nat (length lo) * sum_list_Z hi.
Proof.
  intros H. induction lo as [|a lo IH]; simpl sum_list_Z; simpl length.
  - lia.
  - assert (Ha : Z.of_nat (length hi) * a <= sum_list_Z hi).
    { assert (Hb : forall b, b ∈ hi -> a <= b)
        by (intros b Hb; apply H; [left|exact Hb]).
      clear -Hb. induction hi as [|b hi IH]; simpl; [lia|].
      pose proof (Hb b ltac:(left)).
      specialize (IH ltac:(intros c Hc; apply Hb; right; exact Hc)). lia. }
    specialize (IH ltac:(intros x y Hx Hy; apply H; [right; exact Hx|exact Hy])).
    lia.
Qed.

(** The [k] largest of 256 buckets hold at least [k/256] of the bytes. *)
Lemma top_sum_average (sc : list Z) (size k : Z) :
  walk_input sc size -> 0 <= k <= 256 ->
  k * size <= 256 * top_sum sc k.
Proof.
  intros [Hl Hn Hs Hsort _] Hk. unfold top_sum.
  rewrite take_reverse, sum_list_Z_reverse, Hl.
  set (m := (256 - Z.to_nat k)%nat).
  pose proof (take_drop m sc) as Hsplit.
  rewrite <- Hsplit in Hsort, Hs.
  apply StronglySorted_app in Hsort as (Hcut & _ & _).
  rewrite sum_list_Z_app in Hs.
  pose proof (sum_below_above (take m sc) (drop m sc) Hcut) as Havg.
  rewrite length_take_le, length_drop, Hl in Havg by (unfold m; lia).
  replace (Z.of_nat (256 - m)) with k in Havg by (unfold m; lia).
  replace (Z.of_nat m) with (256 - k) in Havg by (unfold m; lia).
  fold m. nia.
Qed.

(** X4: from 100 bytes on the walk always ends by reaching the threshold,
    after at least one and at most 169 buckets: the bound [offset < 255] of
    the loop never ends it. *)
Theorem walk_needs_at_most_169_buckets (data : list byte) :
  100 <= getDataSize data <= Int.INT_MAX ->
  exists offset sum,
    walk 255 (sort_counts (histogram data)) (getDataSize data) 0 0
    = Some (offset, sum) /\
    1 <= offset <= 169 /\
    reached (getDataSize data) sum.
Proof.
  intros Hs.
  destruct (suggestBrightness_from_100 data Hs) as (k & E & Hk & Hr & Hp & _).
  exists k, (top_sum (sorted_histogram data) k).
  split; [exact E|]. split; [|exact Hr].
  pose proof (sorted_histogram_input data ltac:(unfold getDataSize in Hs; lia))
    as Hin.
  fold (getDataSize data) in Hin.
  split.
  - destruct (Z.eq_dec k 0) as [->|]; [|lia].
    rewrite top_sum_0 in Hr. unfold reached in Hr. lia.
  - destruct (Z_le_gt_dec k 169) as [H|H]; [exact H|exfalso].
    apply (Hp 169); [lia|].
    pose proof (top_sum_average _ _ 169 Hin ltac:(lia)).
    unfold reached. lia.
Qed.

Lemma walk_needs_at_most_169_buckets_witness :
  100 <= getDataSize (repeat x41 66 ++ repeat x00 34) <= Int.INT_MAX /\
  exists offset sum,
    walk 255 (sort_counts (histogram (repeat x41 66 ++ repeat x00 34)))
         (getDataSize (repeat x41 66 ++ repeat x00 34)) 0 0
    = Some (offset, sum) /\
    1 <= offset <= 169 /\
    reached (getDataSize (repeat x41 66 ++ repeat x00 34)) sum.
Proof.
  assert (H : 100 <= getDataSize (repeat x41 66 ++ repeat x00 34)
              <= Int.INT_MAX) by (vm_compute; split; discriminate).
  split; [exact H|].
  exact (walk_needs_at_most_169_buckets _ H).
Defined.

(** The sum of buckets that are all small. *)
Lemma sum_list_Z_bound (l : list Z) (c : Z) :
  Forall (fun e => e <= c) l -> sum_list_Z l <= Z.of_nat (length l) * c.
Proof. induction 1; simpl; lia. Qed.

(** X5: when no byte value makes up as much as 66/6900 (0.96%) of a buffer
    of at least 100 bytes, the 69 largest buckets stay below the threshold
    and the suggestion is the floor 38; a buffer in which all 256 values
    occur equally often is such a buffer. *)
Theorem suggestBrightness_floor (data : list byte) :
  100 <= getDataSize data <= Int.INT_MAX ->
  (forall v, 6900 * occurrences v data < 66 * getDataSize data) ->
  suggestBrightness data = Some k_brightness_heuristic_min.
Proof.
  intros Hs Hflat.
  destruct (suggestBrightness_from_100 data Hs) as (k & _ & Hk & Hr & _ & ->).
  pose proof (sorted_histogram_nonneg data) as Hn.
  unfold k_brightness_heuristic_min, k_brightness_heuristic_max.
  assert (Hsmall : Forall (fun e => e <= (66 * getDataSize data - 1) / 6900)
                          (take 69 (reverse (sorted_histogram data)))).
  { apply Forall_take, Forall_reverse.
    unfold sorted_histogram, sort_counts. rewrite merge_sort_Permutation.
    unfold histogram. apply Forall_fmap, Forall_forall. intros v _. simpl.
    apply Z.div_le_lower_bound; [lia|]. specialize (Hflat v). lia. }
  apply sum_list_Z_bound in Hsmall.
  assert (Hlen : Z.of_nat (length (take 69 (reverse (sorted_histogram data))))
                 <= 69) by (rewrite length_take; lia).
  assert (H69 : ~ reached (getDataSize data) (top_sum (sorted_histogram data) 69)).
  { unfold reached, top_sum. change (Z.to_nat 69) with 69%nat.
    pose proof (Z.mul_div_le (66 * getDataSize data - 1) 6900 ltac:(lia)).
    assert (0 <= (66 * getDataSize data - 1) / 6900)
      by (apply Z.div_pos; lia).
    nia. }
  assert (Hk70 : 70 <= k).
  { destruct (Z_le_gt_dec 70 k) as [H|H]; [exact H|exfalso].
    apply H69. pose proof (top_sum_mono _ k 69 Hn ltac:(lia)).
    unfold reached in *. lia. }
  f_equal.
  assert (28 <= 2 * k / 5) by (apply Z.div_le_lower_bound; lia). lia.
Qed.

Lemma suggestBrightness_floor_witness :
  (100 <= getDataSize byte_values <= Int.INT_MAX /\
   (forall v, 6900 * occurrences v byte_values < 66 * getDataSize byte_values))
  /\ suggestBrightness byte_values = Some k_brightness_heuristic_min.
Proof.
  assert (H1 : 100 <= getDataSize byte_values <= Int.INT_MAX)
    by (vm_compute; split; discriminate).
  assert (H2 : forall v,
    6900 * occurrences v byte_values < 66 * getDataSize byte_values)
    by (intros v; destruct v; vm_compute; reflexivity).
  split; [split; assumption|].
  exact (suggestBrightness_floor byte_values H1 H2).
Defined.

(** * More about the intensity *)

Lemma divisor_value (d : Z) :
  1 <= d <= Int.INT_MAX ->
  brightness_divisor d = Fin (round_int binary32 (d * U)) /\
  U <= round_int binary32 (d * U) <= 2 ^ 31 * U.
Proof.
  intros Hd. unfold Int.INT_MAX in Hd. pose proof U_pos.
  assert (H31 : 2 ^ (31 + 1074) = 2 ^ 31 * U) by (apply Z.pow_add_r; lia).
  unfold brightness_divisor, of_int, of_ratio.
  destruct (round_int_spec binary32 (d * U) (31 + 1074) good_binary32)
    as [E [_ Hhi]]; [simpl; unfold unit_exp; lia|rewrite H31; nia|].
  split; [exact E|]. split; [|rewrite <- H31; exact Hhi].
  assert (E32 : round_int binary32 U = U)
    by (apply (round_int_pow2 binary32 1074 good_binary32); simpl; lia).
  pose proof (round_int_mono binary32 U (d * U) good_binary32 ltac:(nia)) as Hm.
  rewrite E32 in Hm. exact Hm.
Qed.

Lemma intensity_value (value kd : Z) :
  0 <= value <= 255 -> U <= kd <= 2 ^ 31 * U ->
  div binary32 (Fin (value ^ 3 * U)) (Fin kd)
  = Fin (round_pos binary32 (value ^ 3 * U * U) kd) /\
  0 <= round_pos binary32 (value ^ 3 * U * U) kd.
Proof.
  intros Hv Hk. pose proof U_pos as HU.
  assert (Hc : 0 <= value ^ 3 < 2 ^ 24) by nia.
  unfold div.
  destruct (Z.eqb_spec kd 0) as [E|_]; [lia|].
  rewrite Z.sgn_pos, Z.abs_eq, Z.mul_1_l by lia.
  assert (H24 : 2 ^ (24 + 1074) = 2 ^ 24 * U) by (apply Z.pow_add_r; lia).
  destruct (round_nonneg_fin binary32 (value ^ 3 * U * U) kd (24 + 1074))
    as [E [H0 _]]; [apply good_binary32|nia|lia|simpl; unfold unit_exp; lia| |].
  { rewrite H24. nia. }
  split; [exact E|exact H0].
Qed.

(** X6: the intensity is monotone: for slider values up to 255 and data
    sizes that fit [int], a larger value on a smaller (or equal) buffer
    never gives a smaller intensity, roundings included. *)
Theorem setBrightness_monotone
  (value value' size size' : Z) (w w' : Brightness) :
  0 <= value <= value' -> value' <= 255 ->
  1 <= size' <= size -> size <= Int.INT_MAX ->
  exists k k',
    c_brightness (setBrightness value size w) = Fin k /\
    c_brightness (setBrightness value' size' w') = Fin k' /\
    0 <= k <= k'.
Proof.
  intros Hv Hv' Hs Hs'. pose proof U_pos as HU.
  destruct (divisor_value size ltac:(lia)) as [Ed Hd].
  destruct (divisor_value size' ltac:(lia)) as [Ed' Hd'].
  assert (Hdd : round_int binary32 (size' * U) <= round_int binary32 (size * U))
    by (apply round_int_mono; [apply good_binary32|nia]).
  set (kd := round_int binary32 (size * U)) in *.
  set (kd' := round_int binary32 (size' * U)) in *.
  destruct (intensity_value value kd ltac:(lia) Hd) as [E H0].
  destruct (intensity_value value' kd' ltac:(lia) Hd') as [E' H0'].
  exists (round_pos binary32 (value ^ 3 * U * U) kd),
         (round_pos binary32 (value' ^ 3 * U * U) kd').
  split; [|split].
  - unfold setBrightness. cbn [c_brightness].
    rewrite cube_exact, Ed by lia. exact E.
  - unfold setBrightness. cbn [c_brightness].
    rewrite cube_exact, Ed' by lia. exact E'.
  - split; [exact H0|].
    rewrite <- (round_pos_scale binary32 (value ^ 3 * U * U) kd kd') by lia.
    rewrite <- (round_pos_scale binary32 (value' ^ 3 * U * U) kd' kd) by lia.
    rewrite (Z.mul_comm kd' kd).
    assert (Hcube : 0 <= value ^ 3 <= value' ^ 3)
      by (split; [apply Z.pow_nonneg; lia|apply Z.pow_le_mono_l; lia]).
    apply round_pos_mono; [apply good_binary32| |nia].
    assert (Hck : 0 <= value ^ 3 * kd' <= value' ^ 3 * kd).
    { split; [apply Z.mul_nonneg_nonneg; lia|].
      apply Z.mul_le_mono_nonneg; lia. }
    assert (HUU : 0 <= U * U) by (apply Z.mul_nonneg_nonneg; lia).
    replace (value ^ 3 * U * U * kd') with (value ^ 3 * kd' * (U * U)) by ring.
    replace (value' ^ 3 * U * U * kd) with (value' ^ 3 * kd * (U * U)) by ring.
    split; [apply Z.mul_nonneg_nonneg; lia|].
    apply Z.mul_le_mono_nonneg_r; lia.
Qed.

Lemma setBrightness_monotone_witness :
  (0 <= 38 <= 66 /\ 66 <= 255 /\ 1 <= 1000 <= 5000 /\ 5000 <= Int.INT_MAX) /\
  exists k k',
    c_brightness (setBrightness 38 5000 initial_brightness) = Fin k /\
    c_brightness (setBrightness 66 1000 initial_brightness) = Fin k' /\
    0 <= k <= k'.
Proof.
  assert (H1 : 0 <= 38 <= 66) by lia.
  assert (H2 : 66 <= 255) by lia.
  assert (H3 : 1 <= 1000 <= 5000) by lia.
  assert (H4 : 5000 <= Int.INT_MAX) by (vm_compute; discriminate).
  split; [repeat split; lia || exact H4|].
  exact (setBrightness_monotone 38 66 5000 1000 initial_brightness
           initial_brightness H1 H2 H3 H4).
Defined.

(** * [refresh] and [autoSetBrightness] *)

(** What [autoSetBrightness] leaves: the early return keeps the widget as
    it is. *)
Lemma autoSetBrightness_value (data : list byte) (w : Brightness) :
  exists b,
    suggestBrightness data = Some b /\
    autoSetBrightness data w
    = Some (if b =? brightness_ w then w
            else setBrightness b (getDataSize data) w).
Proof.
  destruct (suggestBrightness_returns data) as (b & Eb).
  exists b. split; [exact Eb|].
  unfold autoSetBrightness. rewrite Eb. cbn [mbind option_bind].
  destruct (b =? brightness_ w); reflexivity.
Qed.

(** [refresh] in closed form. *)
Lemma refresh_value (data : list byte) (w : Brightness) :
  exists b,
    suggestBrightness data = Some b /\
    refresh data w
    = Some (setBrightness
              (if use_brightness_heuristic_ w then b else brightness_ w)
              (getDataSize data) w).
Proof.
  destruct (autoSetBrightness_value data w) as (b & Eb & E).
  exists b. split; [exact Eb|]. unfold refresh.
  destruct (use_brightness_heuristic_ w); [|reflexivity].
  rewrite E. cbn [mbind option_bind].
  destruct (Z.eqb_spec b (brightness_ w)) as [->|Hne]; reflexivity.
Qed.

(** X7: [refresh] always returns, and its brightness part is one
    [setBrightness]: of the suggested brightness when the heuristic is on
    (also when [autoSetBrightness] returns early), of the present brightness
    when it is off; in both cases the intensity is recomputed for that
    brightness and the size of the buffer, whatever the intensity was
    before. *)
Theorem refresh_recomputes (data : list byte) (w : Brightness) :
  exists b,
    refresh data w = Some (setBrightness b (getDataSize data) w) /\
    (use_brightness_heuristic_ w = true -> suggestBrightness data = Some b) /\
    (use_brightness_heuristic_ w = false -> b = brightness_ w).
Proof.
  destruct (refresh_value data w) as (b & Eb & E).
  exists (if use_brightness_heuristic_ w then b else brightness_ w).
  split; [exact E|].
  destruct (use_brightness_heuristic_ w).
  - split; [intros _; exact Eb|discriminate].
  - split; [discriminate|reflexivity].
Qed.

(** X8: [refresh] is idempotent: it always returns, and on an unchanged
    buffer a second [refresh] changes nothing. *)
Theorem refresh_idempotent (data : list byte) (w : Brightness) :
  exists w1, refresh data w = Some w1 /\ refresh data w1 = Some w1.
Proof.
  destruct (refresh_value data w) as (b & Eb & E).
  eexists. split; [exact E|].
  destruct (refresh_value data
              (setBrightness
                 (if use_brightness_heuristic_ w then b else brightness_ w)
                 (getDataSize data) w)) as (b' & Eb' & E').
  rewrite E'. f_equal.
  cbn [setBrightness use_brightness_heuristic_ brightness_].
  assert (b' = b) as -> by congruence.
  destruct (use_brightness_heuristic_ w); reflexivity.
Qed.

(** * The brightness slots *)

Lemma setBrightness_up_to_date (data : list byte) (value : Z) (w : Brightness) :
  up_to_date data (setBrightness value (getDataSize data) w).
Proof. reflexivity. Qed.

Lemma up_to_date_flag (data : list byte) (w : Brightness) (flag : bool) :
  up_to_date data w ->
  up_to_date data {| brightness_ := brightness_ w;
                     c_brightness := c_brightness w;
                     use_brightness_heuristic_ := flag |}.
Proof. intros H. exact H. Qed.

(** With an intensity that is up to date, [setBrightness(brightness_)]
    changes nothing. *)
Lemma setBrightness_same (data : list byte) (w : Brightness) :
  up_to_date data w ->
  setBrightness (brightness_ w) (getDataSize data) w = w.
Proof.
  unfold up_to_date, setBrightness. destruct w as [b c h].
  cbn [brightness_ c_brightness use_brightness_heuristic_].
  intros ->. reflexivity.
Qed.

(** X16: a brightness chosen with the slider survives every later
    [refresh], also of another buffer: moving the slider to a value other
    than the present brightness switches the heuristic off, and the
    following [refresh] keeps the value and recomputes only the intensity.
    (A slider signal with the present brightness is ignored and leaves the
    heuristic as it is.) *)
Theorem slider_value_survives_refresh (value dataSize : Z) (w : Brightness)
  (data : list byte) :
  value <> brightness_ w ->
  exists w',
    refresh data (brightnessSliderMoved value dataSize w) = Some w' /\
    brightness_ w' = value /\
    use_brightness_heuristic_ w' = false /\
    up_to_date data w'.
Proof.
  intros Hne. unfold brightnessSliderMoved.
  destruct (Z.eqb_spec value (brightness_ w)) as [E|_]; [contradiction|].
  unfold refresh. cbn [setBrightness use_brightness_heuristic_ brightness_
                       mbind option_bind].
  eexists. split; [reflexivity|].
  cbn [brightness_ use_brightness_heuristic_].
  split; [reflexivity|]. split; reflexivity.
Qed.

Lemma slider_value_survives_refresh_witness :
  70 <> brightness_ initial_brightness /\
  exists w',
    refresh [x41; x42]%byte (brightnessSliderMoved 70 2 initial_brightness)
    = Some w' /\
    brightness_ w' = 70 /\
    use_brightness_heuristic_ w' = false /\
    up_to_date [x41; x42]%byte w'.
Proof.
  assert (H : 70 <> brightness_ initial_brightness)
    by (vm_compute; discriminate).
  split; [exact H|].
  exact (slider_value_survives_refresh 70 2 initial_brightness
           [x41; x42]%byte H).
Defined.

(** One step keeps the intensity up to date, and the brightness at the
    suggestion while the heuristic is on. *)
Lemma brightness_step_in_sync (data : list byte) (a : BrightnessAction)
  (w : Brightness) :
  up_to_date data w ->
  (use_brightness_heuristic_ w = true ->
   suggestBrightness data = Some (brightness_ w)) ->
  exists w',
    brightness_step data a w = Some w' /\
    up_to_date data w' /\
    (use_brightness_heuristic_ w' = true ->
     suggestBrightness data = Some (brightness_ w')).
Proof.
  intros Hup Hs. destruct a as [|value|state|]; cbn [brightness_step].
  - destruct (refresh_value data w) as (b & Eb & E).
    rewrite E. eexists. split; [reflexivity|].
    split; [apply setBrightness_up_to_date|].
    cbn [setBrightness use_brightness_heuristic_ brightness_].
    intros Hon. rewrite Hon. exact Eb.
  - eexists. split; [reflexivity|]. unfold brightnessSliderMoved.
    destruct (Z.eqb_spec value (brightness_ w)) as [E|_].
    + split; assumption.
    + split; [apply setBrightness_up_to_date|].
      cbn [setBrightness use_brightness_heuristic_]. discriminate.
  - unfold setUseBrightnessHeuristic. cbn [use_brightness_heuristic_].
    destruct (negb (state =? 0)) eqn:Hst.
    + match goal with |- context [autoSetBrightness data ?w1] =>
        destruct (autoSetBrightness_value data w1) as (b & Eb & E)
      end.
      rewrite E. cbn [brightness_]. eexists. split; [reflexivity|].
      destruct (Z.eqb_spec b (brightness_ w)) as [->|Hne].
      * split; [exact Hup|]. intros _. exact Eb.
      * split; [apply setBrightness_up_to_date|]. intros _. exact Eb.
    + eexists. split; [reflexivity|].
      split; [exact Hup|]. cbn [use_brightness_heuristic_]. discriminate.
  - unfold initializeVisualisationGL.
    destruct (autoSetBrightness_value data w) as (b & Eb & E).
    rewrite E. cbn [mbind option_bind]. eexists. split; [reflexivity|].
    split; [apply setBrightness_up_to_date|].
    intros _. cbn [setBrightness brightness_].
    destruct (Z.eqb_spec b (brightness_ w)) as [->|Hne]; exact Eb.
Qed.

(** X17: as long as the buffer stays the same, no sequence of refreshes,
    slider moves, check-box changes and GL initialisations brings the
    brightness fields out of step: every call returns, the intensity stays
    the one that belongs to [brightness_] and the buffer (also across the
    early return of [autoSetBrightness], which skips [setBrightness]), and
    while the heuristic is on, [brightness_] is the suggested value. *)
Theorem brightness_stays_in_sync (data : list byte)
  (l : list BrightnessAction) (w : Brightness) :
  up_to_date data w ->
  (use_brightness_heuristic_ w = true ->
   suggestBrightness data = Some (brightness_ w)) ->
  exists w',
    brightness_run data l w = Some w' /\
    up_to_date data w' /\
    (use_brightness_heuristic_ w' = true ->
     suggestBrightness data = Some (brightness_ w')).
Proof.
  revert w. induction l as [|a l IH]; intros w Hup Hs.
  - exists w. split; [reflexivity|]. split; assumption.
  - destruct (brightness_step_in_sync data a w Hup Hs) as (w1 & E & Hup1 & Hs1).
    destruct (IH w1 Hup1 Hs1) as (w' & E' & H').
    exists w'. cbn [brightness_run]. rewrite E. cbn [mbind option_bind].
    split; [exact E'|exact H'].
Qed.

Lemma brightness_stays_in_sync_witness :
  let data := [x41; x42]%byte in
  let w := setBrightness 64 (getDataSize data) initial_brightness in
  let l := [SliderMoved 70; Refresh; UseHeuristic 2; SliderMoved 64; InitGL] in
  (up_to_date data w /\
   (use_brightness_heuristic_ w = true ->
    suggestBrightness data = Some (brightness_ w))) /\
  exists w',
    brightness_run data l w = Some w' /\
    up_to_date data w' /\
    (use_brightness_heuristic_ w' = true ->
     suggestBrightness data = Some (brightness_ w')).
Proof.
  intros data w l.
  assert (H1 : up_to_date data w)
    by exact (setBrightness_up_to_date data 64 initial_brightness).
  assert (H2 : use_brightness_heuristic_ w = true ->
               suggestBrightness data = Some (brightness_ w))
    by (intros _; vm_compute; reflexivity).
  split; [split; assumption|].
  exact (brightness_stays_in_sync data l w H1 H2).
Defined.

(** X18: switching the heuristic on does what a [refresh] with the
    heuristic on does, provided the intensity is up to date; the slot
    itself never recomputes the intensity when the suggestion is the
    present brightness. *)
Theorem setUseBrightnessHeuristic_is_refresh (state : Z) (data : list byte)
  (w : Brightness) :
  state <> 0 -> up_to_date data w ->
  setUseBrightnessHeuristic state data w
  = refresh data {| brightness_ := brightness_ w;
                    c_brightness := c_brightness w;
                    use_brightness_heuristic_ := true |}.
Proof.
  intros Hst Hup. unfold setUseBrightnessHeuristic, refresh.
  cbn [use_brightness_heuristic_].
  destruct (Z.eqb_spec state 0) as [E|_]; [contradiction|]. cbn [negb].
  match goal with |- context [autoSetBrightness data ?w1] =>
    destruct (autoSetBrightness_value data w1) as (b & _ & E);
    pose proof (setBrightness_same data w1 (up_to_date_flag data w true Hup))
      as Hsame
  end.
  rewrite E. cbn [mbind option_bind brightness_] in *.
  destruct (b =? brightness_ w); [|reflexivity].
  cbn [brightness_]. rewrite Hsame. reflexivity.
Qed.

Lemma setUseBrightnessHeuristic_is_refresh_witness :
  (2 <> 0 /\ up_to_date [x41; x42]%byte (setBrightness 70 2 initial_brightness)) /\
  setUseBrightnessHeuristic 2 [x41; x42]%byte
    (setBrightness 70 2 initial_brightness)
  = refresh [x41; x42]%byte
      {| brightness_ := brightness_ (setBrightness 70 2 initial_brightness);
         c_brightness := c_brightness (setBrightness 70 2 initial_brightness);
         use_brightness_heuristic_ := true |}.
Proof.
  assert (H1 : 2 <> 0) by lia.
  assert (H2 : up_to_date [x41; x42]%byte
                 (setBrightness 70 2 initial_brightness))
    by exact (setBrightness_up_to_date [x41; x42]%byte 70 initial_brightness).
  split; [split; assumption|].
  exact (setUseBrightnessHeuristic_is_refresh 2 [x41; x42]%byte
           (setBrightness 70 2 initial_brightness) H1 H2).
Defined.

(** X19: the GL initialisation sets the suggested brightness whether or
    not the heuristic is on: the unconditional [autoSetBrightness] replaces
    a brightness chosen by hand, and leaves the flag as it is. *)
Theorem initializeVisualisationGL_suggests (data : list byte) (w : Brightness) :
  exists b,
    suggestBrightness data = Some b /\
    initializeVisualisationGL data w
    = Some (setBrightness b (getDataSize data) w).
Proof.
  unfold initializeVisualisationGL.
  destruct (autoSetBrightness_value data w) as (b & Eb & E).
  exists b. split; [exact Eb|]. rewrite E. cbn [mbind option_bind].
  destruct (Z.eqb_spec b (brightness_ w)) as [->|Hne]; reflexivity.
Qed.

(** * More about the morph state machine *)

(** ** The shape blends *)

Lemma stepped_one : stepped U = U.
Proof.
  unfold stepped.
  assert (E64 : round_int binary64 U = U)
    by (apply (round_int_pow2 binary64 1074 good_binary64); simpl; lia).
  rewrite E64.
  apply (round_int_pow2 binary32 1074 good_binary32). simpl. lia.
Qed.

(** A shape blend steps like the position blend, with both clamps. *)
Lemma blend_up (k : Z) :
  0 <= k <= U -> clamp_lo (clamp_hi (add_step (Fin k))) = Fin (pos_up k).
Proof.
  intros Hk. pose proof step_units_bounds as HC.
  rewrite add_step_fin, clamp_hi_fin, clamp_lo_fin by lia. f_equal.
  destruct (stepped_sign (k + step_units)) as [Hs _]. specialize (Hs ltac:(lia)).
  unfold pos_up. destruct (Z.ltb_spec k U); [lia|].
  pose proof (stepped_mono U (k + step_units) ltac:(lia)) as Hm.
  rewrite stepped_one in Hm. lia.
Qed.

Lemma blend_down (k : Z) :
  0 <= k <= U -> clamp_lo (clamp_hi (sub_step (Fin k))) = Fin (pos_down k).
Proof.
  intros Hk. pose proof step_units_bounds as HC.
  rewrite sub_step_fin, clamp_hi_fin, clamp_lo_fin by lia. f_equal.
  pose proof (stepped_le_one (k - step_units) ltac:(lia)) as Hle.
  unfold pos_down. destruct (Z.eqb_spec k 0) as [->|Hne]; [|lia].
  destruct (stepped_sign (0 - step_units)) as [_ Hs]. specialize (Hs ltac:(lia)).
  lia.
Qed.

(** The step of a blend that eases toward 1 ([true]) or toward 0. *)
Lemma timerEvent_shape (w : Morph) : shape_ (timerEvent w) = shape_ w.
Proof. reflexivity. Qed.

Lemma ticks_shape (n : nat) (w : Morph) : shape_ (ticks n w) = shape_ w.
Proof.
  unfold ticks. induction n as [|n IH]; [reflexivity|].
  rewrite Nat.iter_succ, timerEvent_shape. exact IH.
Qed.

Lemma timerEvent_c_cyl (w : Morph) (k : Z) :
  c_cyl w = Fin k -> 0 <= k <= U ->
  c_cyl (timerEvent w)
  = Fin (if shape_eqb (shape_ w) CYLINDER then pos_up k else pos_down k).
Proof.
  intros Hc Hk. unfold timerEvent. cbn [c_cyl]. rewrite Hc.
  destruct (shape_eqb (shape_ w) CYLINDER);
    [apply blend_up|apply blend_down]; exact Hk.
Qed.

Lemma timerEvent_c_sph (w : Morph) (k : Z) :
  c_sph w = Fin k -> 0 <= k <= U ->
  c_sph (timerEvent w)
  = Fin (if shape_eqb (shape_ w) SPHERE then pos_up k else pos_down k).
Proof.
  intros Hc Hk. unfold timerEvent. cbn [c_sph]. rewrite Hc.
  destruct (shape_eqb (shape_ w) SPHERE);
    [apply blend_up|apply blend_down]; exact Hk.
Qed.

Lemma iter_in_range (f : Z -> Z) (n : nat) (k : Z) :
  (forall k, 0 <= k <= U -> 0 <= f k <= U) ->
  0 <= k <= U -> 0 <= Nat.iter n f k <= U.
Proof.
  intros Hf Hk. induction n as [|n IH]; [exact Hk|].
  rewrite Nat.iter_succ. apply Hf, IH.
Qed.

Lemma ticks_c_cyl (n : nat) (w : Morph) (k : Z) :
  c_cyl w = Fin k -> 0 <= k <= U ->
  c_cyl (ticks n w)
  = Fin (Nat.iter n (if shape_eqb (shape_ w) CYLINDER then pos_up
                     else pos_down) k).
Proof.
  intros Hc Hk. induction n as [|n IH]; [exact Hc|].
  unfold ticks in *. rewrite !Nat.iter_succ.
  rewrite (timerEvent_c_cyl _ _ IH).
  - fold (ticks n w). rewrite ticks_shape.
    destruct (shape_eqb (shape_ w) CYLINDER); reflexivity.
  - destruct (shape_eqb (shape_ w) CYLINDER); apply iter_in_range;
      auto using pos_up_range, pos_down_range.
Qed.

Lemma ticks_c_sph (n : nat) (w : Morph) (k : Z) :
  c_sph w = Fin k -> 0 <= k <= U ->
  c_sph (ticks n w)
  = Fin (Nat.iter n (if shape_eqb (shape_ w) SPHERE then pos_up
                     else pos_down) k).
Proof.
  intros Hc Hk. induction n as [|n IH]; [exact Hc|].
  unfold ticks in *. rewrite !Nat.iter_succ.
  rewrite (timerEvent_c_sph _ _ IH).
  - fold (ticks n w). rewrite ticks_shape.
    destruct (shape_eqb (shape_ w) SPHERE); reflexivity.
  - destruct (shape_eqb (shape_ w) SPHERE); apply iter_in_range;
      auto using pos_up_range, pos_down_range.
Qed.

(** X9: with the shape held constant, from any cylinder and sphere blends
    in [[0,1]], 101 timer ticks bring both exactly to their targets (the
    cylinder blend to 1 for [CYLINDER], the sphere blend to 1 for [SPHERE],
    every other blend to 0), and they stay there: a cube has both at 0, and
    never are both at 1. *)
Theorem shape_blends_reach_target (w : Morph) (n : nat) :
  in01 (c_cyl w) -> in01 (c_sph w) -> (101 <= n)%nat ->
  c_cyl (ticks n w)
  = (if shape_eqb (shape_ w) CYLINDER then f_one else f_zero) /\
  c_sph (ticks n w)
  = (if shape_eqb (shape_ w) SPHERE then f_one else f_zero).
Proof.
  intros (kc & Hc & Hkc) (ks & Hs & Hks) Hn.
  rewrite (ticks_c_cyl n w kc Hc Hkc), (ticks_c_sph n w ks Hs Hks).
  rewrite f_one_value, f_zero_value.
  split.
  - destruct (shape_eqb (shape_ w) CYLINDER); f_equal;
      [apply pos_up_reaches|apply pos_down_reaches]; assumption.
  - destruct (shape_eqb (shape_ w) SPHERE); f_equal;
      [apply pos_up_reaches|apply pos_down_reaches]; assumption.
Qed.

Lemma shape_blends_reach_target_witness :
  (in01 (c_cyl (setShape SPHERE initial_morph)) /\
   in01 (c_sph (setShape SPHERE initial_morph)) /\ (101 <= 101)%nat) /\
  c_cyl (ticks 101 (setShape SPHERE initial_morph))
  = (if shape_eqb (shape_ (setShape SPHERE initial_morph)) CYLINDER
     then f_one else f_zero) /\
  c_sph (ticks 101 (setShape SPHERE initial_morph))
  = (if shape_eqb (shape_ (setShape SPHERE initial_morph)) SPHERE
     then f_one else f_zero).
Proof.
  assert (Hz : in01 f_zero).
  { exists 0. split; [vm_compute; reflexivity|].
    split; [lia|vm_compute; discriminate]. }
  split; [split; [exact Hz|split; [exact Hz|lia]]|].
  exact (shape_blends_reach_target (setShape SPHERE initial_morph) 101
           Hz Hz (le_n 101)).
Defined.

(** ** The angle *)

Lemma half_value : of_ratio binary32 1 2 = Fin (2 ^ 1073).
Proof. vm_compute. reflexivity. Qed.

(** Half degrees add up exactly as long as 24 bits hold them. *)
Lemma add_half_exact (a : Z) :
  0 <= a < 2 ^ 24 ->
  add binary32 (Fin (a * 2 ^ 1073)) (Fin (2 ^ 1073)) = Fin ((a + 1) * 2 ^ 1073).
Proof.
  intros Ha. unfold add.
  assert (HP : 0 < 2 ^ 1073) by (apply Z.pow_pos_nonneg; lia).
  replace (a * 2 ^ 1073 + 2 ^ 1073) with ((a + 1) * 2 ^ 1073) by lia.
  assert (H25 : 2 ^ (25 + 1073) = 2 ^ 25 * 2 ^ 1073) by (apply Z.pow_add_r; lia).
  destruct (round_int_spec binary32 ((a + 1) * 2 ^ 1073) (25 + 1073)
              good_binary32) as [-> _];
    [simpl; unfold unit_exp; lia|rewrite H25; nia|].
  f_equal. rewrite round_int_nonneg by (auto using good_binary32; nia).
  destruct (Z.eq_dec (a + 1) (2 ^ 24)) as [E|Hne].
  - rewrite E, <- Z.pow_add_r by lia.
    apply round_pos_pow2; [apply good_binary32|simpl; lia].
  - apply round_pos_exact; [apply good_binary32| |]; simpl; lia.
Qed.

(** At 8388608 degrees the next half degree is lost: the sum lies halfway
    between two [float]s, and 8388608 is the even one. *)
Lemma add_half_stall :
  add binary32 (Fin (2 ^ 24 * 2 ^ 1073)) (Fin (2 ^ 1073))
  = Fin (2 ^ 24 * 2 ^ 1073).
Proof. vm_compute. reflexivity. Qed.

Lemma timerEvent_playing (w : Morph) : is_playing_ (timerEvent w) = is_playing_ w.
Proof. reflexivity. Qed.

Lemma ticks_playing (n : nat) (w : Morph) : is_playing_ (ticks n w) = is_playing_ w.
Proof.
  unfold ticks. induction n as [|n IH]; [reflexivity|].
  rewrite Nat.iter_succ, timerEvent_playing. exact IH.
Qed.

Lemma timerEvent_angle (w : Morph) :
  angle (timerEvent w)
  = if is_playing_ w then add binary32 (angle w) (of_ratio binary32 1 2)
    else angle w.
Proof. reflexivity. Qed.

(** X10: the angle is frozen while the animation is paused.  While it
    plays, an angle of [a] half degrees grows by exactly half a degree per
    tick, without rounding error, up to 8388608 degrees (2^24 half
    degrees); there it stops for good, because a [float] of that size no
    longer holds the half. *)
Theorem angle_after_ticks (w : Morph) (a : Z) (n : nat) :
  angle w = Fin (a * 2 ^ 1073) -> 0 <= a <= 2 ^ 24 ->
  angle (ticks n w)
  = if is_playing_ w
    then Fin (Z.min (a + Z.of_nat n) (2 ^ 24) * 2 ^ 1073)
    else angle w.
Proof.
  intros Ha Hr. induction n as [|n IH].
  - unfold ticks. simpl Nat.iter. rewrite Ha.
    destruct (is_playing_ w); [|reflexivity].
    f_equal. f_equal. lia.
  - unfold ticks in *. rewrite Nat.iter_succ, timerEvent_angle.
    fold (ticks n w). rewrite ticks_playing. unfold ticks. rewrite IH.
    destruct (is_playing_ w); [|reflexivity].
    rewrite half_value.
    destruct (Z_lt_le_dec (a + Z.of_nat n) (2 ^ 24)) as [Hlt|Hge].
    + rewrite (Z.min_l (a + Z.of_nat n)) by lia.
      rewrite add_half_exact by lia. f_equal. f_equal. lia.
    + rewrite !Z.min_r by lia. apply add_half_stall.
Qed.

Lemma angle_after_ticks_witness :
  (angle initial_morph = Fin (0 * 2 ^ 1073) /\ 0 <= 0 <= 2 ^ 24) /\
  angle (ticks 720 initial_morph)
  = if is_playing_ initial_morph
    then Fin (Z.min (0 + Z.of_nat 720) (2 ^ 24) * 2 ^ 1073)
    else angle initial_morph.
Proof.
  assert (H1 : angle initial_morph = Fin (0 * 2 ^ 1073))
    by (vm_compute; reflexivity).
  assert (H2 : 0 <= 0 <= 2 ^ 24) by lia.
  split; [split; assumption|].
  exact (angle_after_ticks initial_morph 0 720 H1 H2).
Defined.

(** * More about the manipulator controller *)

Section ControllerRunFacts.

Context {Matrix MState : Type}.
Context (transform : ManipId -> MState -> Matrix).
Context (initFromMatrix : ManipId -> Matrix -> MState -> MState).
Context (handlesPause : ManipId -> bool).
Context (processEvent : ManipId -> QEvent -> MState -> MState).
Context (isCtrlButton : Z -> bool).

Local Abbreviation setManipulator' := (setManipulator transform initFromMatrix handlesPause).
Local Abbreviation event' :=
  (event transform initFromMatrix handlesPause processEvent isCtrlButton).
Local Abbreviation controller_run' :=
  (controller_run transform initFromMatrix handlesPause processEvent
                  isCtrlButton).

(** Removing every manipulator leaves no event filter. *)
Lemma remove_all_filters (fs : list ManipId) :
  fold_left (fun fs m => removeEventFilter m fs) manipulators_ fs = [].
Proof.
  unfold manipulators_. cbn [fold_left]. unfold removeEventFilter.
  induction fs as [|[] fs IH]; [reflexivity|..]; cbn; exact IH.
Qed.

Lemma ptr_eqb_neq (p q : option ManipId) : ptr_eqb p q = false <-> p <> q.
Proof.
  rewrite <- (ptr_eqb_eq p q). destruct (ptr_eqb p q); split; congruence.
Qed.

(** The state after a switch to [m], in closed form. *)
Lemma setManipulator_some (w : @Controller MState) (m : ManipId) :
  current_manipulator_ w <> Some m ->
  playing w = true \/ pause_button_ w <> None ->
  setManipulator' (Some m) w
  = Some {| current_manipulator_ := Some m;
            playing := true;
            pause_button_ :=
              (fun b => {| icon := if playing w then icon b else PauseIcon;
                           enabled := handlesPause m |}) <$> pause_button_ w;
            event_filters := [m];
            manipulator_state :=
              match current_manipulator_ w with
              | Some cur =>
                  set_state m
                    (initFromMatrix m (transform cur (manipulator_state w cur))
                                    (manipulator_state w m))
                    (manipulator_state w)
              | None => manipulator_state w
              end;
            effects := effects w ++ [ManipulatorChanged (Some m); SetFocus] |}.
Proof.
  intros Hne Hok. unfold setManipulator.
  assert (E : ptr_eqb (Some m) (current_manipulator_ w) = false)
    by (apply ptr_eqb_neq; congruence).
  rewrite E, remove_all_filters. cbn [installEventFilter removeEventFilter
    List.filter playing].
  destruct (playing w) eqn:Hp.
  - cbn [mbind option_bind pause_button_ current_manipulator_ playing
         event_filters manipulator_state effects].
    destruct (pause_button_ w) as [b|]; reflexivity.
  - destruct Hok as [Hok|Hok]; [discriminate|].
    unfold playPause. cbn [pause_button_].
    destruct (pause_button_ w) as [b|]; [|congruence].
    reflexivity.
Qed.

(** X11: [setManipulator] runs into a null pointer in exactly two cases,
    both with an argument other than the active manipulator: the animation
    is paused and there is no pause button ([playPause] sets the icon of a
    null button), or the argument is [nullptr] and there is a pause button
    ([handlesPause] is called on the null manipulator). *)
Theorem setManipulator_fails_iff (w : @Controller MState)
  (manipulator : option ManipId) :
  setManipulator' manipulator w = None <->
  manipulator <> current_manipulator_ w /\
  ((playing w = false /\ pause_button_ w = None) \/
   (manipulator = None /\ pause_button_ w <> None)).
Proof.
  unfold setManipulator.
  destruct (ptr_eqb manipulator (current_manipulator_ w)) eqn:E.
  - apply ptr_eqb_eq in E. split; [discriminate|]. intros [H _]. contradiction.
  - apply ptr_eqb_neq in E. cbn [playing].
    destruct (playing w) eqn:Hp, (pause_button_ w) as [b|] eqn:Hb,
      manipulator as [m|];
      unfold playPause;
      cbn [mbind option_bind pause_button_ current_manipulator_ playing];
      rewrite ?Hb;
      cbn [mbind option_bind pause_button_ current_manipulator_ playing];
      split; try discriminate; try (intros _; split; [exact E|]);
      try (left; split; reflexivity); try (right; split; congruence);
      intros [_ [[? ?]|[? ?]]]; congruence.
Qed.

(** X12: a switch to another manipulator [m], on a widget that plays or has
    its pause button, leaves [m] as the only event filter whatever was
    installed before, resumes the animation, enables the pause button as
    [m] handles pauses (the icon turns to pause if the animation was
    paused), and ends in a state on which the same selection is a no-op: the
    toolbar button that [manipulatorChanged] checks triggers
    [setManipulator(m)] once more. *)
Theorem setManipulator_switch_installs (w : @Controller MState) (m : ManipId) :
  current_manipulator_ w <> Some m ->
  playing w = true \/ pause_button_ w <> None ->
  exists w',
    setManipulator' (Some m) w = Some w' /\
    event_filters w' = [m] /\
    playing w' = true /\
    pause_button_ w'
    = (fun b => {| icon := if playing w then icon b else PauseIcon;
                   enabled := handlesPause m |}) <$> pause_button_ w /\
    setManipulator' (Some m) w' = Some w'.
Proof.
  intros Hne Hok. rewrite (setManipulator_some w m Hne Hok).
  eexists. split; [reflexivity|].
  cbn [event_filters playing pause_button_].
  split; [reflexivity|]. split; [reflexivity|]. split; [reflexivity|].
  unfold setManipulator. cbn [current_manipulator_ ptr_eqb].
  destruct m; reflexivity.
Qed.

(** What [event] does to the fields other than the manipulator states and
    the effects. *)
Lemma event_fields (w : @Controller MState) (e : QEvent) :
  playing w = true \/ pause_button_ w <> None ->
  exists w',
    event' e w = Some w' /\
    (rank (current_manipulator_ w) <= rank (current_manipulator_ w'))%nat /\
    (current_manipulator_ w <> None -> current_manipulator_ w' <> None) /\
    (current_manipulator_ w' = current_manipulator_ w /\
     playing w' = playing w /\ pause_button_ w' = pause_button_ w /\
     event_filters w' = event_filters w
     \/
     exists m, current_manipulator_ w' = Some m /\
       playing w' = true /\
       pause_button_ w'
       = (fun b => {| icon := if playing w then icon b else PauseIcon;
                      enabled := handlesPause m |}) <$> pause_button_ w /\
       event_filters w' = [m]).
Proof.
  intros Hok.
  assert (Hsame : forall w0 : @Controller MState,
    w0 = w ->
    exists w', Some (base_event e w0) = Some w' /\
    (rank (current_manipulator_ w) <= rank (current_manipulator_ w'))%nat /\
    (current_manipulator_ w <> None -> current_manipulator_ w' <> None) /\
    (current_manipulator_ w' = current_manipulator_ w /\
     playing w' = playing w /\ pause_button_ w' = pause_button_ w /\
     event_filters w' = event_filters w
     \/
     exists m, current_manipulator_ w' = Some m /\
       playing w' = true /\
       pause_button_ w'
       = (fun b => {| icon := if playing w then icon b else PauseIcon;
                      enabled := handlesPause m |}) <$> pause_button_ w /\
       event_filters w' = [m])).
  { intros w0 ->. eexists. split; [reflexivity|].
    cbn [base_event current_manipulator_ playing pause_button_ event_filters].
    split; [lia|]. split; [auto|]. left. repeat split. }
  assert (Hsw : forall m : ManipId,
    current_manipulator_ w <> Some m ->
    (rank (current_manipulator_ w) <= rank (Some m))%nat ->
    exists w',
    (w1 ← setManipulator' (Some m) w;
     Some (base_event e (deliver processEvent Trackball e w1))) = Some w' /\
    (rank (current_manipulator_ w) <= rank (current_manipulator_ w'))%nat /\
    (current_manipulator_ w <> None -> current_manipulator_ w' <> None) /\
    (current_manipulator_ w' = current_manipulator_ w /\
     playing w' = playing w /\ pause_button_ w' = pause_button_ w /\
     event_filters w' = event_filters w
     \/
     exists m, current_manipulator_ w' = Some m /\
       playing w' = true /\
       pause_button_ w'
       = (fun b => {| icon := if playing w then icon b else PauseIcon;
                      enabled := handlesPause m |}) <$> pause_button_ w /\
       event_filters w' = [m])).
  { intros m Hne Hr. rewrite (setManipulator_some w m Hne Hok).
    cbn [mbind option_bind]. eexists. split; [reflexivity|].
    cbn [base_event deliver current_manipulator_ playing pause_button_
         event_filters].
    split; [exact Hr|]. split; [discriminate|].
    right. exists m. repeat split. }
  unfold event. destruct e as [buttons|key|type].
  - destruct (negb (Z.land buttons LeftButton =? 0)
              && ptr_eqb (current_manipulator_ w) (Some Spin)) eqn:Hc.
    + apply andb_true_iff in Hc as [_ Hc]. apply ptr_eqb_eq in Hc.
      destruct (Hsw Trackball) as (w' & E & H); [congruence|rewrite Hc; simpl; lia|].
      exists w'. split; [|exact H].
      destruct (setManipulator' (Some Trackball) w); exact E.
    + apply Hsame. reflexivity.
  - destruct ((ptr_eqb (current_manipulator_ w) (Some Spin)
               || ptr_eqb (current_manipulator_ w) (Some Trackball))
              && isCtrlButton key) eqn:Hc.
    + apply andb_true_iff in Hc as [Hc _]. apply orb_true_iff in Hc.
      rewrite !ptr_eqb_eq in Hc.
      destruct (Hsw Free) as (w' & E & H);
        [destruct Hc; congruence|destruct Hc as [-> | ->]; simpl; lia|].
      exists w'. split; [|exact H].
      destruct (setManipulator' (Some Free) w); exact E.
    + apply Hsame. reflexivity.
  - apply Hsame. reflexivity.
Qed.

(** X13: events alone never demote the manipulator.  On a widget that plays
    or has its pause button, every sequence of events is handled without a
    null pointer in the way, and the active manipulator only moves up in
    the order Spin, Trackball, Free: once Free is active, no event changes
    the manipulator. *)
Theorem events_never_demote (w : @Controller MState) (es : list QEvent) :
  playing w = true \/ pause_button_ w <> None ->
  exists w',
    controller_run' (Event <$> es) w = Some w' /\
    (rank (current_manipulator_ w) <= rank (current_manipulator_ w'))%nat /\
    (playing w' = true \/ pause_button_ w' <> None).
Proof.
  revert w. induction es as [|e es IH]; intros w Hok.
  - exists w. split; [reflexivity|]. split; [lia|exact Hok].
  - destruct (event_fields w e Hok) as (w1 & E & Hr & _ & Hf).
    assert (Hok1 : playing w1 = true \/ pause_button_ w1 <> None).
    { destruct Hf as [(_ & Hp & Hb & _)|(m & _ & Hp & _)];
        [rewrite Hp, Hb; exact Hok|left; exact Hp]. }
    destruct (IH w1 Hok1) as (w' & E' & Hr' & Hok').
    exists w'. cbn [fmap list_fmap controller_run controller_step].
    rewrite E. cbn [mbind option_bind].
    split; [exact E'|]. split; [lia|exact Hok'].
Qed.

Lemma events_keep_constructed (w : @Controller MState) (es : list QEvent) :
  playing w = true -> pause_button_ w = None ->
  (exists m, current_manipulator_ w = Some m /\ event_filters w = [m]) ->
  exists w',
    controller_run' (Event <$> es) w = Some w' /\
    playing w' = true /\ pause_button_ w' = None /\
    exists m, current_manipulator_ w' = Some m /\ event_filters w' = [m].
Proof.
  revert w. induction es as [|e es IH]; intros w Hp Hb Hm.
  - exists w. split; [reflexivity|]. split; [exact Hp|]. split; [exact Hb|exact Hm].
  - destruct Hm as (m & Hm & Hf).
    destruct (event_fields w e (or_introl Hp)) as (w1 & E & _ & _ & Hc).
    assert (Hinv1 : playing w1 = true /\ pause_button_ w1 = None /\
                    exists m, current_manipulator_ w1 = Some m /\
                              event_filters w1 = [m]).
    { destruct Hc as [(Hc & Hp1 & Hb1 & Hf1)|(m1 & Hc & Hp1 & Hb1 & Hf1)].
      - rewrite Hp1, Hb1, Hc, Hf1. eauto.
      - rewrite Hb1, Hb. eauto. }
    destruct Hinv1 as (Hp1 & Hb1 & Hm1).
    destruct (IH w1 Hp1 Hb1 Hm1) as (w' & E' & H').
    exists w'. cbn [fmap list_fmap controller_run controller_step].
    rewrite E. cbn [mbind option_bind]. split; [exact E'|exact H'].
Qed.

(** X14: the widget as constructed, before the options panel and its pause
    button exist, handles every sequence of events: the constructor and
    the events run without touching the null button, the animation keeps
    playing, there is always an active manipulator, and it is the one event
    filter installed. *)
Theorem constructed_handles_events (states : ManipId -> MState)
  (es : list QEvent) :
  exists w0 w',
    constructed transform initFromMatrix handlesPause states = Some w0 /\
    controller_run' (Event <$> es) w0 = Some w' /\
    playing w' = true /\ pause_button_ w' = None /\
    exists m, current_manipulator_ w' = Some m /\ event_filters w' = [m].
Proof.
  unfold constructed.
  rewrite setManipulator_some by (cbn; (discriminate || (left; reflexivity))).
  eexists.
  match goal with |- exists w', Some ?w = Some ?w0 /\ _ =>
    destruct (events_keep_constructed w es) as (w' & E & H);
      [reflexivity|reflexivity|exists Spin; split; reflexivity|]
  end.
  exists w'. split; [reflexivity|]. split; [exact E|exact H].
Qed.

Lemma playPause_fields (w : @Controller MState) (b : QPushButton) :
  pause_button_ w = Some b ->
  playPause w
  = Some {| current_manipulator_ := current_manipulator_ w;
            playing := negb (playing w);
            pause_button_ :=
              Some {| icon := if playing w then PlayIcon else PauseIcon;
                      enabled := enabled b |};
            event_filters := event_filters w;
            manipulator_state := manipulator_state w;
            effects := effects w |}.
Proof. intros Hb. unfold playPause. rewrite Hb. reflexivity. Qed.

Lemma step_keeps_button (a : ControllerAction) (w : @Controller MState) :
  pause_button_ w <> None -> icon_shows_state w ->
  exists w',
    controller_step transform initFromMatrix handlesPause processEvent
                    isCtrlButton a w = Some w' /\
    pause_button_ w' <> None /\ icon_shows_state w' /\
    (current_manipulator_ w <> None -> current_manipulator_ w' <> None).
Proof.
  intros Hb Hi. destruct (pause_button_ w) as [b|] eqn:Eb; [clear Hb|congruence].
  assert (Hsw : forall (w' : @Controller MState) m,
    playing w' = true ->
    pause_button_ w'
    = (fun b => {| icon := if playing w then icon b else PauseIcon;
                   enabled := handlesPause m |}) <$> pause_button_ w ->
    pause_button_ w' <> None /\ icon_shows_state w').
  { intros w' m Hp Hb'. rewrite Eb in Hb'. cbn in Hb'.
    split; [congruence|]. intros b' E'. rewrite Hb' in E'.
    injection E' as <-. cbn [icon]. rewrite Hp.
    specialize (Hi b Eb). destruct (playing w); [exact Hi|reflexivity]. }
  destruct a as [e|m|]; cbn [controller_step].
  - destruct (event_fields w e) as (w' & E & _ & Hn & Hc);
      [right; congruence|].
    exists w'. split; [exact E|].
    destruct Hc as [(Hc & Hp & Hb' & _)|(m & Hc & Hp & Hb' & _)].
    + split; [congruence|]. split; [|exact Hn].
      intros b' E'. rewrite Hp. apply Hi. congruence.
    + destruct (Hsw w' m Hp) as [H1 H2]; [rewrite Hb', Eb; reflexivity|].
      split; [exact H1|]. split; [exact H2|exact Hn].
  - destruct (ptr_eqb (Some m) (current_manipulator_ w)) eqn:E.
    + exists w. unfold setManipulator. rewrite E.
      split; [reflexivity|]. split; [congruence|]. split; [exact Hi|auto].
    + apply ptr_eqb_neq in E.
      rewrite setManipulator_some by (congruence || (right; congruence)).
      eexists. split; [reflexivity|].
      cbn [current_manipulator_].
      match goal with |- pause_button_ ?w' <> None /\ _ =>
        destruct (Hsw w' m) as [H1 H2]; [reflexivity|reflexivity|]
      end.
      split; [exact H1|]. split; [exact H2|discriminate].
  - rewrite (playPause_fields w b Eb). eexists. split; [reflexivity|].
    cbn [pause_button_ current_manipulator_].
    split; [discriminate|]. split; [|auto].
    intros b' E'. cbn [pause_button_ playing] in *. injection E' as <-.
    cbn [icon]. destruct (playing w); reflexivity.
Qed.

(** X15: once the options panel has made the pause button, with the icon
    showing the animation state, every sequence of events, toolbar
    selections and releases of the pause button is handled without a null
    pointer in the way; the button stays, its icon keeps showing the state
    (pause while playing, play while paused), also across the switches
    that resume the animation, and the active manipulator never becomes
    null. *)
Theorem panel_actions_keep_icon (w : @Controller MState)
  (l : list ControllerAction) :
  pause_button_ w <> None -> icon_shows_state w ->
  exists w',
    controller_run' l w = Some w' /\
    pause_button_ w' <> None /\ icon_shows_state w' /\
    (current_manipulator_ w <> None -> current_manipulator_ w' <> None).
Proof.
  revert w. induction l as [|a l IH]; intros w Hb Hi.
  - exists w. split; [reflexivity|]. split; [exact Hb|]. split; [exact Hi|auto].
  - destruct (step_keeps_button a w Hb Hi) as (w1 & E & Hb1 & Hi1 & Hn1).
    destruct (IH w1 Hb1 Hi1) as (w' & E' & Hb' & Hi' & Hn').
    exists w'. cbn [controller_run]. rewrite E. cbn [mbind option_bind].
    split; [exact E'|]. split; [exact Hb'|]. split; [exact Hi'|auto].
Qed.

End ControllerRunFacts.

(** A paused widget with numbers for matrices, a stale second event filter
    and the pause button showing play. *)
Lemma setManipulator_switch_installs_witness :
  let transform := fun (_ : ManipId) (s : Z) => s in
  let initFromMatrix := fun (_ : ManipId) (m _ : Z) => m in
  let handlesPause := fun m => manip_eqb m Spin in
  let w := {| current_manipulator_ := Some Spin; playing := false;
              pause_button_ := Some {| icon := PlayIcon; enabled := true |};
              event_filters := [Spin; Trackball];
              manipulator_state := fun _ => 7;
              effects := [] |} in
  (current_manipulator_ w <> Some Free /\
   (playing w = true \/ pause_button_ w <> None)) /\
  exists w',
    setManipulator transform initFromMatrix handlesPause (Some Free) w
    = Some w' /\
    event_filters w' = [Free] /\
    playing w' = true /\
    pause_button_ w'
    = (fun b => {| icon := if playing w then icon b else PauseIcon;
                   enabled := handlesPause Free |}) <$> pause_button_ w /\
    setManipulator transform initFromMatrix handlesPause (Some Free) w'
    = Some w'.
Proof.
  intros transform initFromMatrix handlesPause w.
  assert (H1 : current_manipulator_ w <> Some Free) by discriminate.
  assert (H2 : playing w = true \/ pause_button_ w <> None)
    by (right; discriminate).
  split; [split; assumption|].
  exact (setManipulator_switch_installs transform initFromMatrix handlesPause
           w Free H1 H2).
Defined.

Lemma events_never_demote_witness :
  let transform := fun (_ : ManipId) (s : Z) => s in
  let initFromMatrix := fun (_ : ManipId) (m _ : Z) => m in
  let handlesPause := fun m => manip_eqb m Spin in
  let processEvent := fun (_ : ManipId) (_ : QEvent) (s : Z) => s + 1 in
  let isCtrlButton := fun key => key =? 16777249 in
  let w := {| current_manipulator_ := Some Spin; playing := true;
              pause_button_ := None; event_filters := [Spin];
              manipulator_state := fun _ => 7;
              effects := [ManipulatorChanged (Some Spin); SetFocus] |} in
  let es := [MouseMove 1; KeyPress 16777249; MouseMove 1] in
  (playing w = true \/ pause_button_ w <> None) /\
  exists w',
    controller_run transform initFromMatrix handlesPause processEvent
                   isCtrlButton (Event <$> es) w = Some w' /\
    (rank (current_manipulator_ w) <= rank (current_manipulator_ w'))%nat /\
    (playing w' = true \/ pause_button_ w' <> None).
Proof.
  intros transform initFromMatrix handlesPause processEvent isCtrlButton w es.
  assert (H : playing w = true \/ pause_button_ w <> None)
    by (left; reflexivity).
  split; [exact H|].
  exact (events_never_demote transform initFromMatrix handlesPause
           processEvent isCtrlButton w es H).
Defined.

(** The widget after [prepareOptionsPanel]: playing, the button with the
    pause icon. *)
Lemma panel_actions_keep_icon_witness :
  let transform := fun (_ : ManipId) (s : Z) => s in
  let initFromMatrix := fun (_ : ManipId) (m _ : Z) => m in
  let handlesPause := fun m => manip_eqb m Spin in
  let processEvent := fun (_ : ManipId) (_ : QEvent) (s : Z) => s + 1 in
  let isCtrlButton := fun key => key =? 16777249 in
  let w := {| current_manipulator_ := Some Spin; playing := true;
              pause_button_ := Some {| icon := PauseIcon; enabled := true |};
              event_filters := [Spin];
              manipulator_state := fun _ => 7;
              effects := [ManipulatorChanged (Some Spin); SetFocus] |} in
  let l := [PauseReleased; Event (MouseMove 1); PauseReleased;
            Select Free; Select Spin] in
  (pause_button_ w <> None /\ icon_shows_state w) /\
  exists w',
    controller_run transform initFromMatrix handlesPause processEvent
                   isCtrlButton l w = Some w' /\
    pause_button_ w' <> None /\ icon_shows_state w' /\
    (current_manipulator_ w <> None -> current_manipulator_ w' <> None).
Proof.
  intros transform initFromMatrix handlesPause processEvent isCtrlButton w l.
  assert (H1 : pause_button_ w <> None) by discriminate.
  assert (H2 : icon_shows_state w).
  { intros b Hb. injection Hb as <-. reflexivity. }
  split; [split; assumption|].
  exact (panel_actions_keep_icon transform initFromMatrix handlesPause
           processEvent isCtrlButton w l H1 H2).
Defined.
